(** * hardhat-tenderly: the [Tenderly] class

    A shallow embedding of [Tenderly.ts] (request assembly, network
    resolution, verify, push and persistArtifacts) together with the
    properties its specification states about it and further ones its code
    shows.

    JavaScript values are modelled as follows.
    - a [string] is a Rocq [string]; [undefined] in a [string | undefined]
      position is [None];
    - a plain object used as a dictionary ([metadata.sources], [networks])
      is an association list in insertion order, which is the order
      [Object.entries] enumerates string keys that are not array indices
      (source paths and network identifiers here);
    - [Record<string, boolean>] is a [gmap string bool];
    - a plain object read by a computed name (the network table) is the
      [gmap] of its own properties, read through [JS.get_property], which
      also finds what every object inherits from [Object.prototype];
    - [console.log] and the calls to [TenderlyService] are events appended
      to a trace that every operation threads through; an [async] method is
      the operation it performs once its awaits have settled;
    - where a property is about what a call leaves behind, the objects the
      methods create and mutate live in a store of references ([Store]). *)

From Stdlib Require Import String Ascii List Arith Lia.
From stdpp Require Import base option list strings gmap.
Import ListNotations.

Local Open Scope string_scope.
Local Open Scope list_scope.
Local Open Scope nat_scope.

(** ** JavaScript string and object helpers *)

Module JS.

(** [s.split(sep)] for a one-character separator: never empty, the empty
    string splits to one empty segment. *)
Fixpoint split (sep : ascii) (s : string) : list string :=
  match s with
  | EmptyString => [EmptyString]
  | String c rest =>
      if Ascii.eqb c sep then EmptyString :: split sep rest
      else match split sep rest with
           | [] => [String c EmptyString]
           | seg :: segs => String c seg :: segs
           end
  end.

(** [xs.slice(-1)[0]] on an array of strings that is not empty. *)
Definition last_segment (xs : list string) : string := List.last xs EmptyString.

(** [xs[0]] on an array of strings that is not empty. *)
Definition first_segment (xs : list string) : string := List.hd EmptyString xs.

Definition lower_ascii (c : ascii) : ascii :=
  let n := nat_of_ascii c in
  if andb (Nat.leb 65 n) (Nat.leb n 90) then ascii_of_nat (n + 32) else c.

(** [s.toLowerCase()] for a string of ASCII characters.  The case mappings
    of the other characters are not modelled: the operations below take
    [toLowerCase] as a parameter, and this function stands for it at sample
    inputs, which are ASCII. *)
Fixpoint toLowerCase_ascii (s : string) : string :=
  match s with
  | EmptyString => EmptyString
  | String c rest => String (lower_ascii c) (toLowerCase_ascii rest)
  end.

(** Truthiness of a [string | undefined]: [undefined] and the empty string
    are falsy. *)
Definition truthy (v : option string) : bool :=
  match v with
  | None => false
  | Some s => negb (String.eqb s EmptyString)
  end.

(** [a || b] on [string | undefined]. *)
Definition or_else (a b : option string) : option string :=
  if truthy a then a else b.

(** What reading a property of a plain object yields, for an object whose
    own properties hold strings: an own value, a member inherited from
    [Object.prototype] (a built-in function, or the prototype itself
    through [__proto__]), or [undefined]. *)
Inductive Property :=
| OwnString (value : string)
| BuiltinFunction (functionName : string)
| PrototypeObject
| Undefined.

(** The functions every plain object inherits from [Object.prototype], by
    property name. *)
Definition Object_prototype_functions : list string :=
  ["constructor"; "hasOwnProperty"; "isPrototypeOf"; "propertyIsEnumerable";
   "toLocaleString"; "toString"; "valueOf"; "__defineGetter__";
   "__defineSetter__"; "__lookupGetter__"; "__lookupSetter__"].

(** The names under which a plain object finds something it does not own. *)
Definition Object_prototype_names : list string :=
  "__proto__" :: Object_prototype_functions.

(** [({})[k]]: what a plain object without own properties yields. *)
Definition inherited (k : string) : Property :=
  if String.eqb k "__proto__" then PrototypeObject
  else if String.eqb k "constructor" then BuiltinFunction "Object"
  else if bool_decide (k ∈ Object_prototype_functions) then BuiltinFunction k
  else Undefined.

(** [obj[k]] on a plain object with the own properties [own]. *)
Definition get_property (own : gmap string string) (k : string) : Property :=
  match own !! k with
  | Some value => OwnString value
  | None => inherited k
  end.

(** The property key a computed key [[v]] denotes: a string is itself,
    [undefined] becomes the string [undefined], the prototype object
    [[object Object]], and a built-in function its source text as Node
    prints it. *)
Definition computed_key (v : Property) : string :=
  match v with
  | OwnString value => value
  | BuiltinFunction functionName =>
      "function " ++ functionName ++ "() { [native code] }"
  | PrototypeObject => "[object Object]"
  | Undefined => "undefined"
  end.

(** [obj[k] = v]: an existing key keeps its place, a new key goes last. *)
Fixpoint set {V : Type} (k : string) (v : V) (obj : list (string * V))
  : list (string * V) :=
  match obj with
  | [] => [(k, v)]
  | (k', v') :: rest =>
      if String.eqb k' k then (k', v) :: rest else (k', v') :: set k v rest
  end.

(** [Object.keys(obj)]. *)
Definition keys {V : Type} (obj : list (string * V)) : list string :=
  map fst obj.

(** [xs.findIndex(p)], with [None] for [-1]. *)
Fixpoint findIndex {A : Type} (p : A -> bool) (xs : list A) : option nat :=
  match xs with
  | [] => None
  | x :: rest =>
      if p x then Some 0 else option_map S (findIndex p rest)
  end.

End JS.

(** ** Data model ([tenderly/types], Hardhat's dependency graph) *)

Record ContractByName := {
  name : string;
  address : string;
  network : option string
}.

(** A resolved file of Hardhat's dependency graph.  [Tenderly.ts] reads
    [sourceName] and [content.rawContent]; [imports] are the import edges of
    the record (section 3 of the specification), which only the dependency
    resolver follows. *)
Record ResolvedFile := {
  sourceName : string;
  rawContent : string;
  imports : list string
}.

(** [data._resolvedFiles]: a [Map] from source name to resolved file, in
    insertion order.  The code never reads the key (the callback's second
    argument is ignored), so the entries are kept as the list of files. *)
Definition DependencyGraph := list ResolvedFile.

Record Metadata := {
  compiler : string;                       (* compiler.version *)
  sources : list (string * string)         (* path -> { content } *)
}.

Record ContractCompiler := {
  compiler_name : string;
  compiler_version : string
}.

Record TenderlyContract := {
  contractName : string;
  source : string;
  sourcePath : string;
  networks : list (string * string);       (* network id -> { address } *)
  contractCompiler : ContractCompiler
}.

Record SolcSettings := {
  optimizer_enabled : bool;
  optimizer_runs : nat;
  libraries : list (string * string)
}.

Record TenderlyContractConfig := {
  config_compiler_version : string;
  config_optimizer_enabled : bool;
  config_optimizer_runs : nat;
  config_libraries : list (string * string)
}.

Record TenderlyContractUploadRequest := {
  contracts : list TenderlyContract;
  config : TenderlyContractConfig
}.

(** ** Host environment *)

Record TenderlyConfig := {
  project : option string;
  username : option string
}.

(** [env.config]: [solidity_version] is [solidity.compilers[0].version]. *)
Record HardhatConfig := {
  tenderly : TenderlyConfig;
  solidity_version : string;
  solidity_settings : SolcSettings
}.

(** The part of the runtime environment [Tenderly] reads: the configuration,
    [hardhatArguments.network], and the dependency graph that the three
    [compile:solidity:*] tasks return. *)
Record HardhatRuntimeEnvironment := {
  env_config : HardhatConfig;
  hardhatArguments_network : option string;
  dependency_graph : DependencyGraph
}.

(** ** Effects *)

Record JsError := { message : string }.

Inductive Event :=
| ConsoleLog (line : string)
| VerifyContracts (request : TenderlyContractUploadRequest)
| PushContracts (request : TenderlyContractUploadRequest)
                (tenderlyProject tenderlyUsername : string).

Definition Trace := list Event.

(** How the remote service answers: [None] when the call resolves, [Some e]
    when it rejects with [e]. *)
Record TenderlyService := {
  verifyContracts : TenderlyContractUploadRequest -> option JsError;
  pushContracts : TenderlyContractUploadRequest -> string -> string -> option JsError
}.

Inductive Completion (A : Type) :=
| Returned (a : A)
| Thrown (e : JsError).
Arguments Returned {A} a.
Arguments Thrown {A} e.

(** An operation runs on the trace so far and completes normally or by
    throwing. *)
Definition Op (A : Type) := Trace -> Completion A * Trace.

Definition ret {A} (a : A) : Op A := fun t => (Returned a, t).

Definition bind {A B} (m : Op A) (k : A -> Op B) : Op B :=
  fun t =>
    match m t with
    | (Returned a, t') => k a t'
    | (Thrown e, t') => (Thrown e, t')
    end.

Definition emit (ev : Event) : Op unit := fun t => (Returned tt, t ++ [ev]).

Definition console_log (line : string) : Op unit := emit (ConsoleLog line).

Definition throw {A} (e : JsError) : Op A := fun t => (Thrown e, t).

Definition try_catch {A} (body : Op A) (handler : JsError -> Op A) : Op A :=
  fun t =>
    match body t with
    | (Returned a, t') => (Returned a, t')
    | (Thrown e, t') => handler e t'
    end.

#[global] Instance Op_ret : MRet Op := @ret.
#[global] Instance Op_bind : MBind Op := fun A B k m => bind m k.

(** The lines logged in a trace. *)
Definition logged (t : Trace) : list string :=
  flat_map (fun ev => match ev with ConsoleLog l => [l] | _ => [] end) t.

(** The calls to the remote service in a trace. *)
Definition service_calls (t : Trace) : list Event :=
  List.filter (fun ev => match ev with ConsoleLog _ => false | _ => true end) t.

(** ** The dependency resolver ([util.resolveDependencies]) *)

(** [visited[path]] as a condition. *)
Definition is_visited (visited : gmap string bool) (path : string) : bool :=
  match visited !! path with
  | Some true => true
  | _ => false
  end.

(** Modelled from the spec: the graph maps a source identifier to its
    resolved file record (section 3); this is the record for a path. *)
Fixpoint lookup_file (data : DependencyGraph) (path : string) : option ResolvedFile :=
  match data with
  | [] => None
  | f :: rest =>
      if String.eqb (sourceName f) path then Some f else lookup_file rest path
  end.

(** Modelled from the spec: what a walk carries, namely the metadata
    accumulator and the visited-set, both passed by reference (section 4.1),
    and, for the proofs only, the paths whose content the walk has assigned
    into [metadata.sources], oldest first. *)
Record Walk := {
  walk_metadata : Metadata;
  walk_visited : gmap string bool;
  walk_recorded : list string
}.

(** [visited[path] = true] *)
Definition mark_visited (path : string) (w : Walk) : Walk :=
  {| walk_metadata := walk_metadata w;
     walk_visited := <[path := true]> (walk_visited w);
     walk_recorded := walk_recorded w |}.

(** [metadata.sources[path] = { content }] *)
Definition record_source (path content : string) (w : Walk) : Walk :=
  {| walk_metadata :=
       {| compiler := compiler (walk_metadata w);
          sources := JS.set path content (sources (walk_metadata w)) |};
     walk_visited := walk_visited w;
     walk_recorded := walk_recorded w ++ [path] |}.

(** Modelled from the spec: [resolveDependencies] of [./util] is imported by
    [Tenderly.ts] but its body is not part of the sources at hand.  Following
    section 4.1: a path already in the visited-set is skipped; otherwise the
    path enters the visited-set, the raw content of its file is put into the
    accumulator under the path, and the same is done for every file it
    imports.  A path that the graph does not hold is only marked (the walk
    fails soft).  [depth] bounds the nesting of the recursive calls. *)
Fixpoint resolve_walk (depth : nat) (data : DependencyGraph) (path : string)
    (w : Walk) : option Walk :=
  match depth with
  | 0 => None
  | S depth' =>
      if is_visited (walk_visited w) path then Some w
      else
        match lookup_file data path with
        | None => Some (mark_visited path w)
        | Some file =>
            fold_left
              (fun acc dep =>
                 match acc with
                 | Some w' => resolve_walk depth' data dep w'
                 | None => None
                 end)
              (imports file)
              (Some (record_source path (rawContent file) (mark_visited path w)))
        end
  end.

(** Nesting can never exceed the number of files of the graph by more than
    one (see [resolve_walk_total]), so this depth always suffices. *)
Definition enough_depth (data : DependencyGraph) : nat := S (length data).

Definition start_walk (metadata : Metadata) (visited : gmap string bool) : Walk :=
  {| walk_metadata := metadata; walk_visited := visited; walk_recorded := [] |}.

(** Modelled from the spec: the call
    [resolveDependencies(data, sourcePath, metadata, visited)] of section 4.1,
    as the accumulator and the visited-set it leaves.  The walk is run at
    [enough_depth data], where it always returns ([resolveDependencies_walk]). *)
Definition resolveDependencies (data : DependencyGraph) (sourcePath : string)
    (metadata : Metadata) (visited : gmap string bool) : Walk :=
  match resolve_walk (enough_depth data) data sourcePath
          (start_walk metadata visited) with
  | Some w => w
  | None => start_walk metadata visited
  end.

(** Modelled from the spec: [newCompilerConfig] of [./util] is not part of
    the sources at hand.  Section 4.3, step 6: a compiler configuration object
    (compiler version, optimizer settings, libraries) sourced from the host
    configuration. *)
Definition newCompilerConfig (cfg : HardhatConfig) : TenderlyContractConfig :=
  {| config_compiler_version := solidity_version cfg;
     config_optimizer_enabled := optimizer_enabled (solidity_settings cfg);
     config_optimizer_runs := optimizer_runs (solidity_settings cfg);
     config_libraries := libraries (solidity_settings cfg) |}.

(** ** [Tenderly] *)

Module Tenderly.

(** [sourcePath.split("/").slice(-1)[0].split(".")[0]] *)
Definition contract_name_of (sourcePath : string) : string :=
  JS.first_segment
    (JS.split "." (JS.last_segment (JS.split "/" sourcePath))).

(** The inner loop of [getContracts] (lines 209-219) for one resolved
    file: every requested contract of that name stores the file's content
    and resolves its dependencies with a visited-set of its own. *)
Fixpoint collect_for_file (data : DependencyGraph) (resolvedFile : ResolvedFile)
    (flatContracts : list ContractByName) (metadata : Metadata) : Metadata :=
  match flatContracts with
  | [] => metadata
  | contract :: rest =>
      let sourcePath := sourceName resolvedFile in
      if negb (String.eqb (name contract) (contract_name_of sourcePath))
      then collect_for_file data resolvedFile rest metadata
      else
        let metadata1 :=
          {| compiler := compiler metadata;
             sources := JS.set sourcePath (rawContent resolvedFile)
                          (sources metadata) |} in
        let visited : gmap string bool := ∅ in
        let w := resolveDependencies data sourcePath metadata1 visited in
        collect_for_file data resolvedFile rest (walk_metadata w)
  end.

(** [data._resolvedFiles.forEach(...)] (lines 202-220). *)
Definition collect_sources (data : DependencyGraph)
    (flatContracts : list ContractByName) (metadata : Metadata) : Metadata :=
  fold_left
    (fun acc resolvedFile => collect_for_file data resolvedFile flatContracts acc)
    data metadata.

(** One entry of the request (lines 223-237). *)
Definition contractToPush (version : string) (entry : string * string)
  : TenderlyContract :=
  let (key, content) := entry in
  {| contractName := contract_name_of key;
     source := content;
     sourcePath := key;
     networks := [];
     contractCompiler := {| compiler_name := "solc"; compiler_version := version |} |}.

Definition getContracts (env : HardhatRuntimeEnvironment)
    (flatContracts : list ContractByName) : list TenderlyContract :=
  let data := dependency_graph env in
  let metadata :=
    {| compiler := solidity_version (env_config env); sources := [] |} in
  let metadata' := collect_sources data flatContracts metadata in
  map (contractToPush (solidity_version (env_config env))) (sources metadata').

Definition getContractData (env : HardhatRuntimeEnvironment)
    (flatContracts : list ContractByName) : TenderlyContractUploadRequest :=
  {| contracts := getContracts env flatContracts;
     config := newCompilerConfig (env_config env) |}.

(** Lines 154-157: the network a requested contract is attached to. *)
Definition resolve_network (cliNetwork : option string) (contract : ContractByName)
  : option string :=
  if negb (bool_decide (cliNetwork = Some "hardhat"))
  then JS.or_else cliNetwork (network contract)
  else network contract.

(** [requestContract.networks = nets] *)
Definition set_networks (nets : list (string * string)) (c : TenderlyContract)
  : TenderlyContract :=
  {| contractName := contractName c;
     source := source c;
     sourcePath := sourcePath c;
     networks := nets;
     contractCompiler := contractCompiler c |}.

Section WithIndex.

(** [PluginName] and [NetworkMap] are constants of [./index], the latter a
    plain object given by its own properties; [toLowerCase] is
    [String.prototype.toLowerCase]. *)
Context (PluginName : string) (NetworkMap : gmap string string)
        (toLowerCase : string -> string).

Definition network_error : string :=
  "Error in " ++ PluginName
  ++ ": Please provide a network via the hardhat --network argument or directly in the contract".

Definition project_error : string :=
  "Error in " ++ PluginName
  ++ ": Please provide the project field in the tenderly object in hardhat.config.js".

Definition username_error : string :=
  "Error in " ++ PluginName
  ++ ": Please provide the username field in the tenderly object in hardhat.config.js".

(** [{ [NetworkMap[network.toLowerCase()]]: { address } }] *)
Definition networks_entry (network address : string) : list (string * string) :=
  [(JS.computed_key (JS.get_property NetworkMap (toLowerCase network)), address)].

(** The loop of [filterContracts] (lines 153-176) from the contracts
    still to be attached. *)
Fixpoint attach_networks (cliNetwork : option string)
    (flatContracts : list ContractByName)
    (requestContracts : list TenderlyContract)
  : Op (option (list TenderlyContract)) :=
  match flatContracts with
  | [] => mret (Some requestContracts)
  | contract :: rest =>
      match resolve_network cliNetwork contract with
      | None => console_log network_error ;; mret None
      | Some network =>
          match JS.findIndex
                  (fun requestContract =>
                     String.eqb (contractName requestContract) (name contract))
                  requestContracts with
          | None => attach_networks cliNetwork rest requestContracts
          | Some index =>
              attach_networks cliNetwork rest
                (alter (set_networks (networks_entry network (address contract)))
                   index requestContracts)
          end
      end
  end.

Definition filterContracts (env : HardhatRuntimeEnvironment)
    (flatContracts : list ContractByName)
  : Op (option TenderlyContractUploadRequest) :=
  let requestData := getContractData env flatContracts in
  attached ← attach_networks (hardhatArguments_network env) flatContracts
               (contracts requestData);
  mret (option_map
          (fun cs => {| contracts := cs; config := config requestData |})
          attached).

(** [await TenderlyService.verifyContracts(requestData)] *)
Definition call_verifyContracts (service : TenderlyService)
    (requestData : TenderlyContractUploadRequest) : Op unit :=
  emit (VerifyContracts requestData) ;;
  match verifyContracts service requestData with
  | None => mret tt
  | Some err => throw err
  end.

(** [await TenderlyService.pushContracts(requestData, project, username)] *)
Definition call_pushContracts (service : TenderlyService)
    (requestData : TenderlyContractUploadRequest)
    (tenderlyProject tenderlyUsername : string) : Op unit :=
  emit (PushContracts requestData tenderlyProject tenderlyUsername) ;;
  match pushContracts service requestData tenderlyProject tenderlyUsername with
  | None => mret tt
  | Some err => throw err
  end.

(** [contracts.reduce((accumulator, value) => accumulator.concat(value), [])]
    on the rest arguments; an argument that is one contract rather than an
    array of contracts is the list of that one contract. *)
Definition flatten (contracts : list (list ContractByName)) : list ContractByName :=
  fold_left (fun accumulator value => accumulator ++ value) contracts [].

Definition verify (env : HardhatRuntimeEnvironment) (service : TenderlyService)
    (contracts : list (list ContractByName)) : Op unit :=
  let flatContracts := flatten contracts in
  requestData ← filterContracts env flatContracts;
  match requestData with
  | None => console_log "Verification failed"
  | Some requestData =>
      try_catch (call_verifyContracts service requestData)
        (fun err => console_log (message err))
  end.

Definition push (env : HardhatRuntimeEnvironment) (service : TenderlyService)
    (contracts : list (list ContractByName)) : Op unit :=
  let flatContracts := flatten contracts in
  requestData ← filterContracts env flatContracts;
  match project (tenderly (env_config env)) with
  | None => console_log project_error
  | Some tenderlyProject =>
      match username (tenderly (env_config env)) with
      | None => console_log username_error
      | Some tenderlyUsername =>
          match requestData with
          | None => console_log "Push failed"
          | Some requestData =>
              try_catch
                (call_pushContracts service requestData
                   tenderlyProject tenderlyUsername)
                (fun err => console_log (message err))
          end
      end
  end.

End WithIndex.

End Tenderly.

(** ** Notions the properties are stated with *)

(** [path] names a file of the graph. *)
Definition in_graph (data : DependencyGraph) (path : string) : Prop :=
  is_Some (lookup_file data path).

(** One import edge of the graph. *)
Definition imports_edge (data : DependencyGraph) (a b : string) : Prop :=
  ∃ f, lookup_file data a = Some f ∧ b ∈ imports f.

(** [b] is [a] or is imported by [a], directly or through other files. *)
Definition reaches (data : DependencyGraph) : relation string :=
  rtc (imports_edge data).

(** The raw content the graph holds for a path (empty for a path it does not
    hold; the walk never asks for one). *)
Definition content_of (data : DependencyGraph) (path : string) : string :=
  match lookup_file data path with
  | Some f => rawContent f
  | None => EmptyString
  end.

(** The files of the graph a visited-set does not hold yet. *)
Definition unvisited (data : DependencyGraph) (visited : gmap string bool) : nat :=
  length (List.filter (fun f => negb (is_visited visited (sourceName f))) data).

Definition seen (w : Walk) (path : string) : Prop :=
  is_visited (walk_visited w) path = true.

(** What a walk from the paths [roots], started in [w], leaves in [w']. *)
Record walk_post (data : DependencyGraph) (roots : list string) (w w' : Walk)
  : Prop := {
  post_mono : ∀ q, seen w q → seen w' q;
  post_roots : ∀ r, r ∈ roots → seen w' r;
  post_sound : ∀ q, ¬ seen w q → seen w' q → ∃ r, r ∈ roots ∧ reaches data r q;
  post_closed : ∀ a b, ¬ seen w a → seen w' a → imports_edge data a b → seen w' b;
  post_trace : ∃ new,
      walk_recorded w' = walk_recorded w ++ new ∧
      NoDup new ∧
      (∀ q, q ∈ new ↔ ¬ seen w q ∧ seen w' q ∧ in_graph data q) ∧
      sources (walk_metadata w') =
        fold_left (fun obj q => JS.set q (content_of data q) obj) new
          (sources (walk_metadata w));
  post_compiler : compiler (walk_metadata w') = compiler (walk_metadata w)
}.

(** The inline step of the recursive walk over the imports of a file. *)
Definition walk_next (depth : nat) (data : DependencyGraph)
    (acc : option Walk) (dep : string) : option Walk :=
  match acc with
  | Some w' => resolve_walk depth data dep w'
  | None => None
  end.

(** Every entry of a [sources] object is the content of a file of the
    graph under that file's name. *)
Definition sources_of (data : DependencyGraph) (obj : list (string * string)) : Prop :=
  ∀ k v, (k, v) ∈ obj → ∃ f, f ∈ data ∧ sourceName f = k ∧ rawContent f = v.

(** Some requested contract bears the name derived from the file's path. *)
Definition requested (flatContracts : list ContractByName) (f : ResolvedFile) : Prop :=
  ∃ c, c ∈ flatContracts ∧ name c = Tenderly.contract_name_of (sourceName f).

(** [q] is a file of the graph that a requested file among [files] is or
    imports, directly or not. *)
Definition in_closure (data : DependencyGraph) (flatContracts : list ContractByName)
    (files : list ResolvedFile) (q : string) : Prop :=
  ∃ f, f ∈ files ∧ requested flatContracts f ∧
       reaches data (sourceName f) q ∧ in_graph data q.

(** *** Attaching networks *)

Definition name_is (n : string) (requestContract : TenderlyContract) : bool :=
  String.eqb (contractName requestContract) n.

(** The last requested contract of a name. *)
Definition last_with_name (n : string) (flatContracts : list ContractByName)
  : option ContractByName :=
  last (List.filter (fun c => String.eqb (name c) n) flatContracts).

Section Attach.
Context (NetworkMap : gmap string string) (toLowerCase : string -> string)
        (cliNetwork : option string).

(** One turn of the loop of [filterContracts] past its network check. *)
Definition attach_step (requestContracts : list TenderlyContract)
    (contract : ContractByName) : list TenderlyContract :=
  match Tenderly.resolve_network cliNetwork contract with
  | None => requestContracts
  | Some network =>
      match JS.findIndex (name_is (name contract)) requestContracts with
      | None => requestContracts
      | Some index =>
          alter (Tenderly.set_networks
                   (Tenderly.networks_entry NetworkMap toLowerCase network (address contract)))
            index requestContracts
      end
  end.

Definition attach_all (flatContracts : list ContractByName)
    (requestContracts : list TenderlyContract) : list TenderlyContract :=
  fold_left attach_step flatContracts requestContracts.

(** The entry a request holds, after the loop, in the place of [rc]. *)
Definition attached (flatContracts : list ContractByName) (rc : TenderlyContract)
  : TenderlyContract :=
  match last_with_name (contractName rc) flatContracts with
  | Some c =>
      match Tenderly.resolve_network cliNetwork c with
      | Some n =>
          Tenderly.set_networks
            (Tenderly.networks_entry NetworkMap toLowerCase n (address c)) rc
      | None => rc
      end
  | None => rc
  end.
End Attach.

(** The three-branch rule of the specification: the sentinel defers to the
    contract, a network given on the command line wins, and without one the
    contract's own network is used. *)
Inductive CliNetwork :=
| CliSentinel
| CliGiven (network : string)
| CliAbsent.

Definition classify_cli (cliNetwork : option string) : CliNetwork :=
  match cliNetwork with
  | None => CliAbsent
  | Some s =>
      if String.eqb s "hardhat" then CliSentinel
      else if String.eqb s EmptyString then CliAbsent
      else CliGiven s
  end.

Definition three_branch_network (cliNetwork : option string)
    (contract : ContractByName) : option string :=
  match classify_cli cliNetwork with
  | CliGiven n => Some n
  | CliAbsent => network contract
  | CliSentinel => network contract
  end.


(** ** The request assembler on the object store

    The same methods with the objects they create and mutate kept in a store
    that outlives a call: [metadata], every [visited], the
    [requestContracts] array, its entries and the request live at
    references, [console.log] appends to the console, and a method returns
    the reference of its result.  An object nested in another and reachable
    only through it ([metadata.sources], an entry's [networks] and
    [compiler]) is part of that object.  The contracts passed in and the
    dependency graph are only read, and are passed as values. *)

Inductive StoredObject :=
| MetadataObject (metadata : Metadata)
| VisitedObject (visited : gmap string bool)
| ContractObject (contract : TenderlyContract)
| ArrayObject (elements : list positive)
| RequestObject (contractsRef : positive) (requestConfig : TenderlyContractConfig).

Record Memory := {
  heap : gmap positive StoredObject;
  console : Trace
}.

(** An operation on the store; [None] when a reference does not hold an
    object of the kind read from it. *)
Definition MemOp (A : Type) := Memory -> option (A * Memory).

Definition mem_ret {A} (a : A) : MemOp A := fun m => Some (a, m).

Definition mem_bind {A B} (op : MemOp A) (k : A -> MemOp B) : MemOp B :=
  fun m =>
    match op m with
    | Some (a, m') => k a m'
    | None => None
    end.

#[global] Instance MemOp_ret : MRet MemOp := @mem_ret.
#[global] Instance MemOp_bind : MBind MemOp := fun A B k op => mem_bind op k.

Module Store.

(** A new object, at a reference no object of the store has. *)
Definition alloc (o : StoredObject) : MemOp positive :=
  fun m =>
    let ref := fresh (dom (heap m)) in
    Some (ref, {| heap := <[ref := o]> (heap m); console := console m |}).

Definition write (ref : positive) (o : StoredObject) : MemOp unit :=
  fun m => Some (tt, {| heap := <[ref := o]> (heap m); console := console m |}).

Definition console_log (line : string) : MemOp unit :=
  fun m => Some (tt, {| heap := heap m; console := console m ++ [ConsoleLog line] |}).

Definition read_metadata (ref : positive) : MemOp Metadata :=
  fun m =>
    match heap m !! ref with
    | Some (MetadataObject metadata) => Some (metadata, m)
    | _ => None
    end.

Definition read_visited (ref : positive) : MemOp (gmap string bool) :=
  fun m =>
    match heap m !! ref with
    | Some (VisitedObject visited) => Some (visited, m)
    | _ => None
    end.

Definition read_array (ref : positive) : MemOp (list positive) :=
  fun m =>
    match heap m !! ref with
    | Some (ArrayObject elements) => Some (elements, m)
    | _ => None
    end.

(** [requestData.contracts] *)
Definition read_contractsRef (ref : positive) : MemOp positive :=
  fun m =>
    match heap m !! ref with
    | Some (RequestObject contractsRef _) => Some (contractsRef, m)
    | _ => None
    end.

Definition contract_at (h : gmap positive StoredObject) (ref : positive)
  : option TenderlyContract :=
  match h !! ref with
  | Some (ContractObject contract) => Some contract
  | _ => None
  end.

(** The contracts an array of references holds. *)
Definition contracts_at (h : gmap positive StoredObject) (refs : list positive)
  : option (list TenderlyContract) :=
  mapM (contract_at h) refs.

Definition read_contracts (refs : list positive) : MemOp (list TenderlyContract) :=
  fun m =>
    match contracts_at (heap m) refs with
    | Some requestContracts => Some (requestContracts, m)
    | None => None
    end.

(** The request a reference holds, read through its array and entries. *)
Definition request_at (h : gmap positive StoredObject) (ref : positive)
  : option TenderlyContractUploadRequest :=
  match h !! ref with
  | Some (RequestObject contractsRef requestConfig) =>
      match h !! contractsRef with
      | Some (ArrayObject elements) =>
          match contracts_at h elements with
          | Some requestContracts =>
              Some {| contracts := requestContracts; config := requestConfig |}
          | None => None
          end
      | _ => None
      end
  | _ => None
  end.

(** [metadata.sources[sourcePath] = { content }] (lines 214-216). *)
Definition assign_source (metadata : positive) (sourcePath content : string)
  : MemOp unit :=
  m ← read_metadata metadata;
  write metadata
    (MetadataObject
       {| compiler := compiler m;
          sources := JS.set sourcePath content (sources m) |}).

(** Modelled from the spec: [resolveDependencies] returns nothing and
    mutates the accumulator and the visited-set in place (section 4.1); the
    two objects end as the walk leaves them. *)
Definition resolveDependencies (data : DependencyGraph) (sourcePath : string)
    (metadata visited : positive) : MemOp unit :=
  m ← read_metadata metadata;
  v ← read_visited visited;
  let w := resolveDependencies data sourcePath m v in
  write metadata (MetadataObject (walk_metadata w)) ;;
  write visited (VisitedObject (walk_visited w)).

(** The inner loop of [getContracts] (lines 209-219) for one resolved file. *)
Fixpoint collect_for_file (data : DependencyGraph) (resolvedFile : ResolvedFile)
    (flatContracts : list ContractByName) (metadata : positive) : MemOp unit :=
  match flatContracts with
  | [] => mret tt
  | contract :: rest =>
      let sourcePath := sourceName resolvedFile in
      if negb (String.eqb (name contract) (Tenderly.contract_name_of sourcePath))
      then collect_for_file data resolvedFile rest metadata
      else
        assign_source metadata sourcePath (rawContent resolvedFile) ;;
        visited ← alloc (VisitedObject ∅);
        resolveDependencies data sourcePath metadata visited ;;
        collect_for_file data resolvedFile rest metadata
  end.

(** [data._resolvedFiles.forEach(...)] (lines 202-220) from the files still
    to be visited. *)
Fixpoint collect_sources (data : DependencyGraph) (resolvedFiles : list ResolvedFile)
    (flatContracts : list ContractByName) (metadata : positive) : MemOp unit :=
  match resolvedFiles with
  | [] => mret tt
  | resolvedFile :: rest =>
      collect_for_file data resolvedFile flatContracts metadata ;;
      collect_sources data rest flatContracts metadata
  end.

(** The loop over [Object.entries(metadata.sources)] (lines 222-238): each
    entry becomes a new object pushed onto [requestContracts]. *)
Fixpoint push_entries (version : string) (entries : list (string * string))
    (requestContracts : positive) : MemOp unit :=
  match entries with
  | [] => mret tt
  | entry :: rest =>
      contractToPush ← alloc (ContractObject (Tenderly.contractToPush version entry));
      elements ← read_array requestContracts;
      write requestContracts (ArrayObject (elements ++ [contractToPush])) ;;
      push_entries version rest requestContracts
  end.

Definition getContracts (env : HardhatRuntimeEnvironment)
    (flatContracts : list ContractByName) : MemOp positive :=
  let data := dependency_graph env in
  let version := solidity_version (env_config env) in
  requestContracts ← alloc (ArrayObject []);
  metadata ← alloc (MetadataObject {| compiler := version; sources := [] |});
  collect_sources data data flatContracts metadata ;;
  m ← read_metadata metadata;
  push_entries version (sources m) requestContracts ;;
  mret requestContracts.

Definition getContractData (env : HardhatRuntimeEnvironment)
    (flatContracts : list ContractByName) : MemOp positive :=
  contractsRef ← getContracts env flatContracts;
  alloc (RequestObject contractsRef (newCompilerConfig (env_config env))).

Section WithIndex.
Context (PluginName : string) (NetworkMap : gmap string string)
        (toLowerCase : string -> string).

(** The loop of [filterContracts] (lines 153-176) from the contracts still
    to be attached; the result is the request's reference, or [None] for
    [null]. *)
Fixpoint attach_networks (cliNetwork : option string)
    (flatContracts : list ContractByName) (requestData : positive)
  : MemOp (option positive) :=
  match flatContracts with
  | [] => mret (Some requestData)
  | contract :: rest =>
      match Tenderly.resolve_network cliNetwork contract with
      | None =>
          console_log (Tenderly.network_error PluginName) ;; mret None
      | Some network =>
          contractsRef ← read_contractsRef requestData;
          elements ← read_array contractsRef;
          requestContracts ← read_contracts elements;
          match JS.findIndex
                  (fun requestContract =>
                     String.eqb (contractName requestContract) (name contract))
                  requestContracts with
          | None => attach_networks cliNetwork rest requestData
          | Some index =>
              match elements !! index, requestContracts !! index with
              | Some ref, Some requestContract =>
                  write ref
                    (ContractObject
                       (Tenderly.set_networks
                          (Tenderly.networks_entry NetworkMap toLowerCase
                             network (address contract))
                          requestContract)) ;;
                  attach_networks cliNetwork rest requestData
              | _, _ => fun _ => None
              end
          end
      end
  end.

Definition filterContracts (env : HardhatRuntimeEnvironment)
    (flatContracts : list ContractByName) : MemOp (option positive) :=
  requestData ← getContractData env flatContracts;
  attach_networks (hardhatArguments_network env) flatContracts requestData.

End WithIndex.
End Store.

(** What a call may change of a store: the objects at the references [kept]
    stay as they are, and no object disappears. *)
Definition keeps (kept : gset positive) (m m' : Memory) : Prop :=
  (∀ ref, ref ∈ kept → heap m' !! ref = heap m !! ref) ∧
  dom (heap m) ⊆ dom (heap m').

(** The array at [arrayRef] holds the references [refs], one apiece for the
    contracts [requestContracts], none of them among [kept]. *)
Record array_holds (kept : gset positive) (h : gmap positive StoredObject)
    (arrayRef : positive) (refs : list positive)
    (requestContracts : list TenderlyContract) : Prop := {
  holds_array : h !! arrayRef = Some (ArrayObject refs);
  holds_contracts :
    Forall2 (fun ref rc => h !! ref = Some (ContractObject rc)) refs requestContracts;
  holds_NoDup : NoDup refs;
  holds_apart : arrayRef ∉ refs;
  holds_array_new : arrayRef ∉ kept;
  holds_new : ∀ ref, ref ∈ refs → ref ∉ kept
}.

(** ** Sample inputs *)

Definition sample_NetworkMap : gmap string string :=
  <["mainnet" := "1"]> (<["ropsten" := "3"]> ∅).

Definition sample_settings : SolcSettings :=
  {| optimizer_enabled := true; optimizer_runs := 200; libraries := [] |}.

Definition sample_config (tenderlyProject tenderlyUsername : option string)
  : HardhatConfig :=
  {| tenderly := {| project := tenderlyProject; username := tenderlyUsername |};
     solidity_version := "0.8.0";
     solidity_settings := sample_settings |}.

Definition Token_sol : ResolvedFile :=
  {| sourceName := "contracts/Token.sol";
     rawContent := "contract Token {}";
     imports := ["contracts/lib/SafeMath.sol"] |}.

Definition Vault_sol : ResolvedFile :=
  {| sourceName := "contracts/Vault.sol";
     rawContent := "contract Vault {}";
     imports := ["contracts/lib/SafeMath.sol"; "contracts/Token.sol"] |}.

(** The library imports a file that imports it back. *)
Definition SafeMath_sol : ResolvedFile :=
  {| sourceName := "contracts/lib/SafeMath.sol";
     rawContent := "library SafeMath {}";
     imports := ["contracts/Token.sol"] |}.

Definition sample_graph : DependencyGraph := [Token_sol; Vault_sol; SafeMath_sol].

Definition sample_env (cliNetwork tenderlyProject tenderlyUsername : option string)
  : HardhatRuntimeEnvironment :=
  {| env_config := sample_config tenderlyProject tenderlyUsername;
     hardhatArguments_network := cliNetwork;
     dependency_graph := sample_graph |}.

Definition Token_at (addr : string) (net : option string) : ContractByName :=
  {| name := "Token"; address := addr; network := net |}.

Definition Vault_at (addr : string) (net : option string) : ContractByName :=
  {| name := "Vault"; address := addr; network := net |}.

Definition quiet_service : TenderlyService :=
  {| verifyContracts := fun _ => None; pushContracts := fun _ _ _ => None |}.

Definition failing_service : TenderlyService :=
  {| verifyContracts := fun _ => Some {| message := "Request failed with status code 401" |};
     pushContracts := fun _ _ _ => Some {| message := "Request failed with status code 401" |} |}.

Definition solc_0_8_0 : ContractCompiler :=
  {| compiler_name := "solc"; compiler_version := "0.8.0" |}.

(** Two files of one base name. *)
Definition twin_graph : DependencyGraph :=
  [ {| sourceName := "legacy/Token.sol"; rawContent := "contract Token { /* v1 */ }";
       imports := [] |};
    {| sourceName := "contracts/Token.sol"; rawContent := "contract Token { /* v2 */ }";
       imports := [] |} ].

Definition twin_env : HardhatRuntimeEnvironment :=
  {| env_config := sample_config (Some "demo") (Some "dev");
     hardhatArguments_network := Some "ropsten";
     dependency_graph := twin_graph |}.

Definition Token_entry (nets : list (string * string)) : TenderlyContract :=
  {| contractName := "Token";
     source := "contract Token {}";
     sourcePath := "contracts/Token.sol";
     networks := nets;
     contractCompiler := solc_0_8_0 |}.

Definition SafeMath_entry : TenderlyContract :=
  {| contractName := "SafeMath";
     source := "library SafeMath {}";
     sourcePath := "contracts/lib/SafeMath.sol";
     networks := [];
     contractCompiler := solc_0_8_0 |}.

(** ** [persistArtifacts] *)

(** One of the rest arguments of a method: a contract, or an array of
    contracts. *)
Inductive Argument :=
| Single (contract : ContractByName)
| Array (contracts : list ContractByName).

(** What [accumulator.concat(value)] appends for an argument. *)
Definition argument_contracts (a : Argument) : list ContractByName :=
  match a with
  | Single c => [c]
  | Array cs => cs
  end.

(** [contract.name] for an element of the rest arguments; an array has no
    such property. *)
Definition argument_name (a : Argument) : option string :=
  match a with
  | Single c => Some (name c)
  | Array _ => None
  end.

(** [TenderlyArtifact], over the values [JSON.parse] yields. *)
Record TenderlyArtifact (J : Type) := {
  artifact_metadata : string;
  artifact_address : string;
  artifact_bytecode : J;
  artifact_deployedBytecode : J;
  artifact_abi : J
}.
Arguments artifact_metadata {J} _.
Arguments artifact_address {J} _.
Arguments artifact_bytecode {J} _.
Arguments artifact_deployedBytecode {J} _.
Arguments artifact_abi {J} _.

(** What the platform provides to [persistArtifacts]: [JSON.parse] (which
    throws on malformed text), property access on a parsed value (which
    throws on [null]), [JSON.stringify] on the two objects it is applied to,
    and [path.sep]. *)
Record Platform := {
  Json : Type;
  JSON_parse : string -> Completion Json;
  member : Json -> string -> Completion Json;
  JSON_stringify_metadata : Metadata -> string;
  JSON_stringify_artifact : TenderlyArtifact Json -> string;
  sep : string
}.

(** The files on disk, by path as written (two spellings of one location
    are two paths). *)
Abbreviation Files := (gmap string string) (only parsing).

(** An operation on the files, which completes normally or by throwing. *)
Definition FsOp (A : Type) := Files -> Completion A * Files.

Definition fs_ret {A} (a : A) : FsOp A := fun files => (Returned a, files).

Definition fs_bind {A B} (m : FsOp A) (k : A -> FsOp B) : FsOp B :=
  fun files =>
    match m files with
    | (Returned a, files') => k a files'
    | (Thrown e, files') => (Thrown e, files')
    end.

#[global] Instance FsOp_ret : MRet FsOp := @fs_ret.
#[global] Instance FsOp_bind : MBind FsOp := fun A B k m => fs_bind m k.

(** A pure step that may throw. *)
Definition fs_lift {A} (c : Completion A) : FsOp A := fun files => (c, files).

Definition no_such_file (path : string) : JsError :=
  {| message := "ENOENT: no such file or directory, open '" ++ path ++ "'" |}.

(** [fs.readFileSync(path).toString()] *)
Definition readFileSync (path : string) : FsOp string :=
  fun files =>
    match files !! path with
    | Some content => (Returned content, files)
    | None => (Thrown (no_such_file path), files)
    end.

(** [fs.outputFileSync(path, content)]: missing directories are created and
    the file is replaced; the write is taken to succeed. *)
Definition outputFileSync (path content : string) : FsOp unit :=
  fun files => (Returned tt, <[path := content]> files).

Module Persist.
Section WithPlatform.
Context (platform : Platform).

(** [destPath] (line 99). *)
Definition destPath : string :=
  "deployments" ++ sep platform ++ "localhost_5777" ++ sep platform.

(** The file written for a contract name (line 139). *)
Definition dest_file (name : string) : string :=
  destPath ++ name ++ ".json".

(** [contractDataPath] (line 110). *)
Definition contractDataPath (artifacts : string) (resolvedFile : ResolvedFile) : string :=
  artifacts ++ sep platform ++ sourceName resolvedFile ++ sep platform
  ++ Tenderly.contract_name_of (sourceName resolvedFile) ++ ".json".

(** The metadata of lines 115-128, after the dependencies are resolved. *)
Definition artifact_sources (env : HardhatRuntimeEnvironment)
    (resolvedFile : ResolvedFile) : Metadata :=
  let data := dependency_graph env in
  let sourcePath := sourceName resolvedFile in
  let metadata :=
    {| compiler := solidity_version (env_config env);
       sources := [(sourcePath, rawContent resolvedFile)] |} in
  let visited : gmap string bool := ∅ in
  walk_metadata (resolveDependencies data sourcePath metadata visited).

(** The body of the [if] of lines 109-142 for one resolved file and one
    contract of its name. *)
Definition persist_one (env : HardhatRuntimeEnvironment) (artifacts : string)
    (resolvedFile : ResolvedFile) (contract : ContractByName) : FsOp unit :=
  let name := Tenderly.contract_name_of (sourceName resolvedFile) in
  text ← readFileSync (contractDataPath artifacts resolvedFile);
  contractData ← fs_lift (JSON_parse platform text);
  let metadata := artifact_sources env resolvedFile in
  let metadata_text := JSON_stringify_metadata platform metadata in
  bytecode ← fs_lift (member platform contractData "bytecode");
  deployedBytecode ← fs_lift (member platform contractData "deployedBytecode");
  abi ← fs_lift (member platform contractData "abi");
  let artifact :=
    {| artifact_metadata := metadata_text;
       artifact_address := address contract;
       artifact_bytecode := bytecode;
       artifact_deployedBytecode := deployedBytecode;
       artifact_abi := abi |} in
  outputFileSync (dest_file name) (JSON_stringify_artifact platform artifact).

(** The loop over the arguments (lines 108-143) for one resolved file. *)
Fixpoint persist_for_file (env : HardhatRuntimeEnvironment) (artifacts : string)
    (resolvedFile : ResolvedFile) (contracts : list Argument) : FsOp unit :=
  match contracts with
  | [] => mret tt
  | contract :: rest =>
      match contract with
      | Single c =>
          if String.eqb (name c) (Tenderly.contract_name_of (sourceName resolvedFile))
          then persist_one env artifacts resolvedFile c ;;
               persist_for_file env artifacts resolvedFile rest
          else persist_for_file env artifacts resolvedFile rest
      | Array _ => persist_for_file env artifacts resolvedFile rest
      end
  end.

(** [data._resolvedFiles.forEach(...)] (lines 101-144) from the files still
    to be visited. *)
Fixpoint persist_files (env : HardhatRuntimeEnvironment) (artifacts : string)
    (resolvedFiles : list ResolvedFile) (contracts : list Argument) : FsOp unit :=
  match resolvedFiles with
  | [] => mret tt
  | resolvedFile :: rest =>
      persist_for_file env artifacts resolvedFile contracts ;;
      persist_files env artifacts rest contracts
  end.

(** [persistArtifacts(...contracts)]; [artifacts] is
    [env.config.paths.artifacts]. *)
Definition persistArtifacts (env : HardhatRuntimeEnvironment) (artifacts : string)
    (contracts : list Argument) : FsOp unit :=
  persist_files env artifacts (dependency_graph env) contracts.

(** The contracts among the arguments that bear the name of a file, in the
    order of the arguments. *)
Fixpoint contracts_of_file (resolvedFile : ResolvedFile) (contracts : list Argument)
  : list ContractByName :=
  match contracts with
  | [] => []
  | Single c :: rest =>
      if String.eqb (name c) (Tenderly.contract_name_of (sourceName resolvedFile))
      then c :: contracts_of_file resolvedFile rest
      else contracts_of_file resolvedFile rest
  | Array _ :: rest => contracts_of_file resolvedFile rest
  end.

(** The pairs of a resolved file and a contract of its name, in the order in
    which the two nested loops reach them. *)
Fixpoint matched_pairs (resolvedFiles : list ResolvedFile) (contracts : list Argument)
  : list (ResolvedFile * ContractByName) :=
  match resolvedFiles with
  | [] => []
  | f :: rest =>
      map (pair f) (contracts_of_file f contracts) ++ matched_pairs rest contracts
  end.

Fixpoint persist_pairs (env : HardhatRuntimeEnvironment) (artifacts : string)
    (pairs : list (ResolvedFile * ContractByName)) : FsOp unit :=
  match pairs with
  | [] => mret tt
  | (f, c) :: rest =>
      persist_one env artifacts f c ;; persist_pairs env artifacts rest
  end.

(** The last pair, in that order, whose file has the base name [n]. *)
Definition last_pair_named (n : string) (pairs : list (ResolvedFile * ContractByName))
  : option (ResolvedFile * ContractByName) :=
  last (List.filter
          (fun p => String.eqb (Tenderly.contract_name_of (sourceName (fst p))) n)
          pairs).

End WithPlatform.
End Persist.

(** A platform for the sample inputs: parsed values are texts, a member of a
    value is the value's text followed by the member's name. *)
Definition sample_platform : Platform :=
  {| Json := string;
     JSON_parse := fun text =>
       if String.eqb text "" then Thrown {| message := "Unexpected end of JSON input" |}
       else Returned text;
     member := fun value key => Returned (value ++ "." ++ key)%string;
     JSON_stringify_metadata := fun metadata =>
       String.concat ";" (JS.keys (sources metadata));
     JSON_stringify_artifact := fun artifact =>
       (artifact_address artifact ++ "|" ++ artifact_metadata artifact ++ "|"
        ++ artifact_bytecode artifact ++ "|" ++ artifact_deployedBytecode artifact
        ++ "|" ++ artifact_abi artifact)%string;
     sep := "/" |}.

(** The artifact of [Token] as the compiler left it on disk. *)
Definition sample_files : Files :=
  <["artifacts/contracts/Token.sol/Token.json" := "{Token}"]> ∅.

(** * Proofs *)

(** ** The dependency resolver *)

Section Resolver.
Context (data : DependencyGraph).

Lemma is_visited_mark (v : gmap string bool) p q :
  is_visited (<[p := true]> v) q = true ↔ q = p ∨ is_visited v q = true.
Proof.
  unfold is_visited. destruct (decide (p = q)) as [->|Hne].
  - rewrite lookup_insert_eq. tauto.
  - rewrite lookup_insert_ne by done. split; [tauto|].
    intros [->|H]; [done|exact H].
Qed.

Lemma seen_mark p w q : seen (mark_visited p w) q ↔ q = p ∨ seen w q.
Proof. apply is_visited_mark. Qed.

Lemma seen_record p c w q : seen (record_source p c w) q ↔ seen w q.
Proof. reflexivity. Qed.

Lemma seen_dec w q : {seen w q} + {¬ seen w q}.
Proof. unfold seen. destruct (is_visited (walk_visited w) q); [left|right]; congruence. Qed.

Lemma lookup_file_name p f : lookup_file data p = Some f → sourceName f = p.
Proof.
  induction data as [|g rest IH]; simpl; [done|].
  destruct (String.eqb (sourceName g) p) eqn:E.
  - intros [= ->]. by apply String.eqb_eq.
  - exact IH.
Qed.

Lemma lookup_file_elem p f : lookup_file data p = Some f → f ∈ data.
Proof.
  induction data as [|g rest IH]; simpl; [done|].
  destruct (String.eqb (sourceName g) p).
  - intros [= ->]. left.
  - intros H. right. auto.
Qed.

Lemma elem_in_graph f : f ∈ data → in_graph data (sourceName f).
Proof.
  unfold in_graph. induction data as [|g rest IH]; [by intros ?%elem_of_nil|].
  intros Hf. simpl. destruct (String.eqb (sourceName g) (sourceName f)) eqn:E; [by eexists|].
  apply elem_of_cons in Hf as [->|Hf]; [|auto].
  rewrite String.eqb_refl in E. done.
Qed.

Lemma walk_next_none depth qs : fold_left (walk_next depth data) qs None = None.
Proof. induction qs; simpl; auto. Qed.

Lemma resolve_walk_unfold depth p w :
  resolve_walk (S depth) data p w =
    if is_visited (walk_visited w) p then Some w
    else match lookup_file data p with
         | None => Some (mark_visited p w)
         | Some file =>
             fold_left (walk_next depth data) (imports file)
               (Some (record_source p (rawContent file) (mark_visited p w)))
         end.
Proof. reflexivity. Qed.

(** *** Composition of walks *)

Lemma walk_post_skip p w : seen w p → walk_post data [p] w w.
Proof.
  intros Hp. split; try done.
  - by intros r ->%list_elem_of_singleton.
  - exists []. rewrite app_nil_r. split_and!; [done|constructor| |done].
    intros q. split; [by intros ?%elem_of_nil|tauto].
Qed.

Lemma walk_post_nil w : walk_post data [] w w.
Proof.
  split; try done.
  - by intros r ?%elem_of_nil.
  - exists []. rewrite app_nil_r. split_and!; [done|constructor| |done].
    intros q. split; [by intros ?%elem_of_nil|tauto].
Qed.

Lemma walk_post_absent p w :
  ¬ seen w p → lookup_file data p = None → walk_post data [p] w (mark_visited p w).
Proof.
  intros Hp Hnone. split.
  - intros q Hq. apply seen_mark. by right.
  - intros r ->%list_elem_of_singleton. apply seen_mark. by left.
  - intros q Hq [->|?]%seen_mark; [|done]. exists p. split; [left|reflexivity].
  - intros a b Ha [->|?]%seen_mark; [|done]. intros (f & Hf & _). congruence.
  - exists []. rewrite app_nil_r. split_and!; [done|constructor| |done].
    intros q. split; [by intros ?%elem_of_nil|].
    intros (Hq & [->|?]%seen_mark & [f Hf]); [congruence|done].
  - done.
Qed.

Lemma walk_post_seq roots1 roots2 w w1 w2 :
  walk_post data roots1 w w1 → walk_post data roots2 w1 w2 →
  walk_post data (roots1 ++ roots2) w w2.
Proof.
  intros P1 P2. split.
  - intros q Hq. by apply P2, P1.
  - intros r [Hr|Hr]%elem_of_app.
    + by apply P2, (post_roots _ _ _ _ P1).
    + by apply (post_roots _ _ _ _ P2).
  - intros q Hq Hq2. destruct (seen_dec w1 q) as [Hq1|Hq1].
    + destruct (post_sound _ _ _ _ P1 q Hq Hq1) as (r & Hr & Hreach).
      exists r. split; [apply elem_of_app; by left|done].
    + destruct (post_sound _ _ _ _ P2 q Hq1 Hq2) as (r & Hr & Hreach).
      exists r. split; [apply elem_of_app; by right|done].
  - intros a b Ha Ha2 Hedge. destruct (seen_dec w1 a) as [Ha1|Ha1].
    + apply P2. by apply (post_closed _ _ _ _ P1 a b).
    + by apply (post_closed _ _ _ _ P2 a b).
  - destruct (post_trace _ _ _ _ P1) as (n1 & Hr1 & Hnd1 & Hin1 & Hs1).
    destruct (post_trace _ _ _ _ P2) as (n2 & Hr2 & Hnd2 & Hin2 & Hs2).
    exists (n1 ++ n2). split_and!.
    + by rewrite Hr2, Hr1, app_assoc.
    + apply NoDup_app. split_and!; [done| |done].
      intros q Hq1 Hq2. apply Hin1 in Hq1. apply Hin2 in Hq2. tauto.
    + intros q. rewrite elem_of_app, Hin1, Hin2. split.
      * intros [(Hq&Hq1&Hg)|(Hq1&Hq2&Hg)]; split_and!; try done.
        -- by apply P2.
        -- intros Hq. by apply Hq1, P1.
      * intros (Hq & Hq2 & Hg). destruct (seen_dec w1 q); [left|right]; done.
    + by rewrite Hs2, Hs1, fold_left_app.
  - by rewrite (post_compiler _ _ _ _ P2), (post_compiler _ _ _ _ P1).
Qed.

Lemma walk_post_file p f w w' :
  ¬ seen w p → lookup_file data p = Some f →
  walk_post data (imports f)
    (record_source p (rawContent f) (mark_visited p w)) w' →
  walk_post data [p] w w'.
Proof.
  intros Hp Hf P.
  set (w0 := record_source p (rawContent f) (mark_visited p w)) in *.
  assert (Hw0 : ∀ q, seen w0 q ↔ q = p ∨ seen w q).
  { intros q. unfold w0. rewrite seen_record. apply seen_mark. }
  split.
  - intros q Hq. apply P, Hw0. by right.
  - intros r ->%list_elem_of_singleton. apply P, Hw0. by left.
  - intros q Hq Hq'. exists p. split; [left|].
    destruct (decide (q = p)) as [->|Hne]; [reflexivity|].
    destruct (post_sound _ _ _ _ P q) as (r & Hr & Hreach); [rewrite Hw0; tauto|done|].
    eapply rtc_l; [|exact Hreach]. by exists f.
  - intros a b Ha Ha' Hedge. destruct (decide (a = p)) as [->|Hne].
    + destruct Hedge as (f' & Hf' & Hb). assert (f' = f) as -> by congruence.
      by apply (post_roots _ _ _ _ P).
    + apply (post_closed _ _ _ _ P a b); [rewrite Hw0; tauto|done|done].
  - destruct (post_trace _ _ _ _ P) as (n & Hr & Hnd & Hin & Hs).
    exists (p :: n). split_and!.
    + rewrite Hr. unfold w0. simpl. by rewrite <- app_assoc.
    + constructor; [|done]. intros Hpn%Hin. apply Hpn, Hw0. by left.
    + intros q. rewrite elem_of_cons, Hin, Hw0. split.
      * intros [->|(?&?&?)]; [|tauto].
        split_and!; [done| |by eexists]. apply P, Hw0. by left.
      * intros (?&?&?). destruct (decide (q = p)); [by left|right; tauto].
    + rewrite Hs. simpl. unfold content_of. by rewrite Hf.
  - by rewrite (post_compiler _ _ _ _ P).
Qed.

Lemma resolve_walk_post depth : ∀ p w w',
  resolve_walk depth data p w = Some w' → walk_post data [p] w w'.
Proof.
  induction depth as [|depth IH]; intros p w w'; [done|].
  rewrite resolve_walk_unfold.
  destruct (is_visited (walk_visited w) p) eqn:Hvis.
  { intros [= <-]. by apply walk_post_skip. }
  assert (Hp : ¬ seen w p) by (unfold seen; congruence).
  destruct (lookup_file data p) as [f|] eqn:Hf.
  2:{ intros [= <-]. by apply walk_post_absent. }
  intros Hfold. apply (walk_post_file p f); [done|done|].
  revert Hfold. generalize (record_source p (rawContent f) (mark_visited p w)).
  induction (imports f) as [|q qs IHq]; intros w0; simpl.
  - intros [= <-]. apply walk_post_nil.
  - destruct (resolve_walk depth data q w0) as [w1|] eqn:Hq.
    + intros Hfold. apply (walk_post_seq [q] qs w0 w1 w'); auto.
    + by rewrite walk_next_none.
Qed.

End Resolver.

(** *** Termination *)

Lemma unvisited_le_length data (v : gmap string bool) : unvisited data v ≤ length data.
Proof. unfold unvisited. apply List.filter_length_le. Qed.

Lemma unvisited_mono data (v v' : gmap string bool) :
  (∀ q, is_visited v q = true → is_visited v' q = true) →
  unvisited data v' ≤ unvisited data v.
Proof.
  intros Hmono. unfold unvisited.
  induction data as [|f rest IH]; simpl; [done|].
  destruct (is_visited v (sourceName f)) eqn:E.
  - rewrite (Hmono _ E). simpl. exact IH.
  - simpl. destruct (is_visited v' (sourceName f)); simpl; lia.
Qed.

Lemma unvisited_mark data (v : gmap string bool) p :
  is_visited v p = false → in_graph data p →
  unvisited data (<[p := true]> v) < unvisited data v.
Proof.
  intros Hp [f Hf]. unfold unvisited.
  induction data as [|g rest IH]; simpl in *; [done|].
  destruct (String.eqb (sourceName g) p) eqn:E.
  - apply String.eqb_eq in E. rewrite E, Hp.
    assert (is_visited (<[p:=true]> v) p = true) as -> by (apply is_visited_mark; by left).
    simpl. apply Nat.lt_succ_r.
    apply (unvisited_mono rest).
    intros q Hq. apply is_visited_mark. by right.
  - specialize (IH Hf).
    destruct (is_visited v (sourceName g)) eqn:Hg.
    + assert (is_visited (<[p:=true]> v) (sourceName g) = true) as ->
        by (apply is_visited_mark; by right).
      simpl. exact IH.
    + simpl. destruct (is_visited (<[p:=true]> v) (sourceName g)); simpl; lia.
Qed.

Lemma resolve_walk_total data depth : ∀ p w,
  unvisited data (walk_visited w) < depth →
  ∃ w', resolve_walk depth data p w = Some w'.
Proof.
  induction depth as [|depth IH]; intros p w Hlt; [lia|].
  rewrite resolve_walk_unfold.
  destruct (is_visited (walk_visited w) p) eqn:Hvis; [by eexists|].
  destruct (lookup_file data p) as [f|] eqn:Hf; [|by eexists].
  assert (Hlt0 : unvisited data
            (walk_visited (record_source p (rawContent f) (mark_visited p w))) < depth).
  { simpl. pose proof (unvisited_mark data (walk_visited w) p Hvis (mk_is_Some _ _ Hf)). lia. }
  revert Hlt0. generalize (record_source p (rawContent f) (mark_visited p w)).
  induction (imports f) as [|q qs IHq]; intros w0 Hlt0; simpl; [by eexists|].
  destruct (IH q w0 Hlt0) as [w1 Hw1]. rewrite Hw1.
  apply IHq. apply resolve_walk_post in Hw1.
  pose proof (unvisited_mono data (walk_visited w0) (walk_visited w1) (post_mono _ _ _ _ Hw1)).
  lia.
Qed.

Lemma resolve_walk_more_depth data depth : ∀ depth' p w w',
  resolve_walk depth data p w = Some w' → depth ≤ depth' →
  resolve_walk depth' data p w = Some w'.
Proof.
  induction depth as [|depth IH]; intros depth' p w w'; [done|].
  intros Hw Hle. destruct depth' as [|depth']; [lia|].
  rewrite resolve_walk_unfold in *.
  destruct (is_visited (walk_visited w) p); [done|].
  destruct (lookup_file data p) as [f|]; [|done].
  revert Hw. generalize (record_source p (rawContent f) (mark_visited p w)).
  induction (imports f) as [|q qs IHq]; intros w0; simpl; [done|].
  destruct (resolve_walk depth data q w0) as [w1|] eqn:Hq.
  - rewrite (IH depth' q w0 w1 Hq) by lia. apply IHq.
  - by rewrite walk_next_none.
Qed.

Lemma resolveDependencies_walk data p metadata visited :
  resolve_walk (enough_depth data) data p (start_walk metadata visited)
  = Some (resolveDependencies data p metadata visited).
Proof.
  unfold resolveDependencies.
  destruct (resolve_walk_total data (enough_depth data) p (start_walk metadata visited))
    as [w Hw].
  - unfold enough_depth. pose proof (unvisited_le_length data visited). simpl. lia.
  - by rewrite Hw.
Qed.

Lemma resolveDependencies_post data p metadata visited :
  walk_post data [p] (start_walk metadata visited)
    (resolveDependencies data p metadata visited).
Proof. eapply resolve_walk_post, resolveDependencies_walk. Qed.

(** C5.  For every graph (cyclic and diamond-shaped ones included), every
    starting path, accumulator and visited-set, [resolveDependencies]
    terminates: the walk returns at depth [enough_depth data] and at every
    greater depth, with the same result.  It assigns no path twice into the
    accumulator and none that was already in the visited-set; the sources it
    leaves are the given ones with the recorded paths assigned in order. *)
Theorem resolveDependencies_terminates_records_once
    (data : DependencyGraph) (path : string) (metadata : Metadata)
    (visited : gmap string bool) :
  ∃ w,
    (∀ depth, enough_depth data ≤ depth →
       resolve_walk depth data path (start_walk metadata visited) = Some w) ∧
    resolveDependencies data path metadata visited = w ∧
    NoDup (walk_recorded w) ∧
    (∀ q, q ∈ walk_recorded w → is_visited visited q = false) ∧
    sources (walk_metadata w) =
      fold_left (fun obj q => JS.set q (content_of data q) obj)
        (walk_recorded w) (sources metadata).
Proof.
  exists (resolveDependencies data path metadata visited).
  pose proof (resolveDependencies_walk data path metadata visited) as Hw.
  pose proof (resolveDependencies_post data path metadata visited) as P.
  destruct (post_trace _ _ _ _ P) as (new & Hrec & Hnd & Hin & Hsrc).
  simpl in Hrec. split_and!.
  - intros depth Hle. by apply (resolve_walk_more_depth data (enough_depth data)).
  - done.
  - by rewrite Hrec.
  - intros q Hq. rewrite Hrec in Hq. apply Hin in Hq as (Hq & _).
    unfold seen in Hq. simpl in Hq. by destruct (is_visited visited q).
  - by rewrite Hrec.
Qed.

(** *** A walk with a visited-set of its own *)

Lemma resolveDependencies_fresh data p metadata :
  ∃ new,
    NoDup new ∧
    (∀ q, q ∈ new ↔ reaches data p q ∧ in_graph data q) ∧
    sources (walk_metadata (resolveDependencies data p metadata ∅)) =
      fold_left (fun obj q => JS.set q (content_of data q) obj) new
        (sources metadata) ∧
    compiler (walk_metadata (resolveDependencies data p metadata ∅)) =
      compiler metadata.
Proof.
  pose proof (resolveDependencies_post data p metadata ∅) as P.
  set (w := resolveDependencies data p metadata ∅) in *.
  assert (Hfresh : ∀ q, ¬ seen (start_walk metadata ∅) q).
  { intros q. unfold seen, is_visited. simpl. by rewrite lookup_empty. }
  assert (Hseen : ∀ q, seen w q ↔ reaches data p q).
  { intros q. split.
    - intros Hq. destruct (post_sound _ _ _ _ P q (Hfresh q) Hq) as (r & Hr & Hreach).
      by apply list_elem_of_singleton in Hr as ->.
    - revert q. apply rtc_ind_r.
      + apply (post_roots _ _ _ _ P). left.
      + intros a b _ Hedge Ha. by apply (post_closed _ _ _ _ P a b). }
  destruct (post_trace _ _ _ _ P) as (new & _ & Hnd & Hin & Hsrc).
  exists new. split_and!; [done| |done|apply (post_compiler _ _ _ _ P)].
  intros q. rewrite Hin, Hseen. pose proof (Hfresh q). tauto.
Qed.

(** *** Objects as dictionaries *)

Lemma keys_set {V} k (v : V) obj q :
  q ∈ JS.keys (JS.set k v obj) ↔ q = k ∨ q ∈ JS.keys obj.
Proof.
  unfold JS.keys. induction obj as [|[k' v'] rest IH]; simpl.
  - rewrite list_elem_of_singleton, elem_of_nil. tauto.
  - destruct (String.eqb k' k) eqn:E; simpl; rewrite !elem_of_cons.
    + apply String.eqb_eq in E. subst. tauto.
    + rewrite IH. tauto.
Qed.

Lemma NoDup_keys_set {V} k (v : V) obj :
  NoDup (JS.keys obj) → NoDup (JS.keys (JS.set k v obj)).
Proof.
  induction obj as [|[k' v'] rest IH]; simpl.
  - intros _. apply NoDup_singleton.
  - intros [Hk' Hrest]%NoDup_cons. destruct (String.eqb k' k) eqn:E; simpl.
    + by apply NoDup_cons.
    + apply NoDup_cons. split; [|auto].
      fold (JS.keys (JS.set k v rest)). rewrite keys_set.
      intros [->|?]; [|done]. by rewrite String.eqb_refl in E.
Qed.

Lemma elem_of_set {V} k (v : V) obj q u :
  (q, u) ∈ JS.set k v obj → (q = k ∧ u = v) ∨ (q, u) ∈ obj.
Proof.
  induction obj as [|[k' v'] rest IH]; simpl.
  - intros [= -> ->]%list_elem_of_singleton. by left.
  - destruct (String.eqb k' k) eqn:E.
    + apply String.eqb_eq in E. subst.
      intros [[= -> ->]|?]%elem_of_cons; [by left|right; by right].
    + intros [->|H]%elem_of_cons; [right; left|].
      destruct (IH H); [by left|right; by right].
Qed.

Lemma fold_set_keys data new : ∀ obj q,
  q ∈ JS.keys (fold_left (fun obj q => JS.set q (content_of data q) obj) new obj)
  ↔ q ∈ new ∨ q ∈ JS.keys obj.
Proof.
  induction new as [|n new IH]; intros obj q; simpl.
  - rewrite elem_of_nil. tauto.
  - rewrite IH, keys_set, elem_of_cons. tauto.
Qed.

Lemma fold_set_NoDup data new : ∀ obj,
  NoDup (JS.keys obj) →
  NoDup (JS.keys (fold_left (fun obj q => JS.set q (content_of data q) obj) new obj)).
Proof.
  induction new as [|n new IH]; intros obj Hnd; simpl; [done|].
  by apply IH, NoDup_keys_set.
Qed.

Lemma fold_set_sources_of data new : ∀ obj,
  (∀ q, q ∈ new → in_graph data q) → sources_of data obj →
  sources_of data (fold_left (fun obj q => JS.set q (content_of data q) obj) new obj).
Proof.
  induction new as [|n new IH]; intros obj Hnew Hobj; simpl; [done|].
  apply IH.
  - intros q Hq. apply Hnew. by right.
  - intros k v [[-> ->]|?]%elem_of_set; [|by apply Hobj].
    destruct (Hnew n) as [f Hf]; [left|].
    exists f. unfold content_of. rewrite Hf.
    split_and!; [by eapply lookup_file_elem|by eapply lookup_file_name|done].
Qed.

(** *** The sources [getContracts] gathers *)

Lemma collect_for_file_spec data f :
  f ∈ data → ∀ flatContracts metadata,
  let metadata' := Tenderly.collect_for_file data f flatContracts metadata in
  compiler metadata' = compiler metadata ∧
  (NoDup (JS.keys (sources metadata)) → NoDup (JS.keys (sources metadata'))) ∧
  (sources_of data (sources metadata) → sources_of data (sources metadata')) ∧
  (∀ q, q ∈ JS.keys (sources metadata') ↔
        q ∈ JS.keys (sources metadata) ∨
        (requested flatContracts f ∧ reaches data (sourceName f) q ∧ in_graph data q)).
Proof.
  intros Hf flatContracts.
  induction flatContracts as [|c rest IH]; intros metadata; simpl.
  { split_and!; try done. intros q. split; [by left|].
    intros [?|[(c & []%elem_of_nil & _) _]]. done. }
  destruct (String.eqb (name c) (Tenderly.contract_name_of (sourceName f))) eqn:E; simpl.
  - apply String.eqb_eq in E.
    destruct (resolveDependencies_fresh data (sourceName f)
                {| compiler := compiler metadata;
                   sources := JS.set (sourceName f) (rawContent f) (sources metadata) |})
      as (new & Hnd & Hin & Hsrc & Hcomp).
    simpl in Hsrc, Hcomp.
    match goal with
    | |- context [Tenderly.collect_for_file data f rest ?m] =>
        specialize (IH m); set (m1 := m) in *
    end.
    destruct IH as (IHc & IHnd & IHof & IHk).
    assert (Hreq : requested (c :: rest) f) by (exists c; split; [left|done]).
    split_and!.
    + by rewrite IHc, Hcomp.
    + intros H. apply IHnd. rewrite Hsrc. by apply fold_set_NoDup, NoDup_keys_set.
    + intros H. apply IHof. rewrite Hsrc. apply fold_set_sources_of.
      * intros q Hq%Hin. tauto.
      * intros k v [[-> ->]|?]%elem_of_set; [by exists f|by apply H].
    + intros q. rewrite IHk, Hsrc, fold_set_keys, keys_set, Hin. split.
      * intros [[?|[->|?]]|(_ & ? & ?)]; try tauto.
        right. split_and!; [done|reflexivity|by apply elem_in_graph].
      * intros [?|(_ & ? & ?)]; tauto.
  - destruct (IH metadata) as (IHc & IHnd & IHof & IHk).
    split_and!; try done.
    intros q. rewrite IHk. split.
    + intros [?|((c' & Hc' & Hn) & ? & ?)]; [by left|right].
      split_and!; [|done..]. exists c'. split; [by right|done].
    + intros [?|((c' & Hc' & Hn) & ? & ?)]; [by left|right].
      split_and!; [|done..]. exists c'. split; [|done].
      apply elem_of_cons in Hc' as [->|?]; [|done].
      rewrite Hn, String.eqb_refl in E. done.
Qed.

Lemma collect_files_spec data flatContracts : ∀ files metadata,
  (∀ f, f ∈ files → f ∈ data) →
  let metadata' :=
    fold_left (fun acc f => Tenderly.collect_for_file data f flatContracts acc)
      files metadata in
  compiler metadata' = compiler metadata ∧
  (NoDup (JS.keys (sources metadata)) → NoDup (JS.keys (sources metadata'))) ∧
  (sources_of data (sources metadata) → sources_of data (sources metadata')) ∧
  (∀ q, q ∈ JS.keys (sources metadata') ↔
        q ∈ JS.keys (sources metadata) ∨ in_closure data flatContracts files q).
Proof.
  induction files as [|f files IH]; intros metadata Hfiles; simpl.
  { split_and!; try done. intros q. split; [by left|].
    intros [?|(f & []%elem_of_nil & _)]. done. }
  destruct (collect_for_file_spec data f (Hfiles f ltac:(left)) flatContracts metadata)
    as (Hc & Hnd & Hof & Hk).
  destruct (IH (Tenderly.collect_for_file data f flatContracts metadata))
    as (IHc & IHnd & IHof & IHk).
  { intros g Hg. apply Hfiles. by right. }
  split_and!.
  - by rewrite IHc.
  - auto.
  - auto.
  - intros q. rewrite IHk, Hk. split.
    + intros [[?|(?&?&?)]|(g & Hg & ?)]; [by left|right..].
      * exists f. split; [left|done].
      * exists g. split; [by right|done].
    + intros [?|(g & [->|Hg]%elem_of_cons & ? & ? & ?)]; [tauto|tauto|].
      right. by exists g.
Qed.

Lemma sourcePath_contractToPush version (obj : list (string * string)) :
  sourcePath <$> map (Tenderly.contractToPush version) obj = JS.keys obj.
Proof.
  unfold JS.keys. induction obj as [|[k v] rest IH]; simpl; [done|].
  f_equal. exact IH.
Qed.

Lemma getContracts_spec env flatContracts :
  let data := dependency_graph env in
  let requestContracts := Tenderly.getContracts env flatContracts in
  NoDup (sourcePath <$> requestContracts) ∧
  (∀ q, q ∈ sourcePath <$> requestContracts ↔ in_closure data flatContracts data q) ∧
  (∀ rc, rc ∈ requestContracts →
     contractName rc = Tenderly.contract_name_of (sourcePath rc) ∧
     networks rc = [] ∧
     contractCompiler rc =
       {| compiler_name := "solc";
          compiler_version := solidity_version (env_config env) |} ∧
     ∃ f, f ∈ data ∧ sourceName f = sourcePath rc ∧ rawContent f = source rc).
Proof.
  intros data requestContracts. subst requestContracts.
  unfold Tenderly.getContracts, Tenderly.collect_sources. fold data.
  destruct (collect_files_spec data flatContracts data
              {| compiler := solidity_version (env_config env); sources := [] |})
    as (Hc & Hnd & Hof & Hk); [done|].
  simpl in *.
  match goal with
  | |- context [sources ?m] => set (md := m) in *
  end.
  pose proof (sourcePath_contractToPush (solidity_version (env_config env)) (sources md))
    as Hpaths.
  split_and!.
  - rewrite Hpaths. apply Hnd. constructor.
  - intros q. rewrite Hpaths, Hk. unfold JS.keys. simpl. rewrite elem_of_nil. tauto.
  - intros rc Hrc. apply list_elem_of_fmap in Hrc as ([k v] & -> & Hkv). simpl.
    split_and!; try done. apply Hof; [|done]. by intros ? ? ?%elem_of_nil.
Qed.

(** *** The loop of [filterContracts] *)

Section AttachLemmas.
Context (PluginName : string) (NetworkMap : gmap string string)
        (toLowerCase : string -> string)
        (cliNetwork : option string).

Local Abbreviation resolved c := (is_Some (Tenderly.resolve_network cliNetwork c)).

Lemma attach_all_cons c rest rcs :
  attach_all NetworkMap toLowerCase cliNetwork (c :: rest) rcs
  = attach_all NetworkMap toLowerCase cliNetwork rest (attach_step NetworkMap toLowerCase cliNetwork rcs c).
Proof. reflexivity. Qed.

Lemma attach_networks_resolved flatContracts : ∀ requestContracts t,
  (∀ c, c ∈ flatContracts → resolved c) →
  Tenderly.attach_networks PluginName NetworkMap toLowerCase cliNetwork flatContracts
    requestContracts t
  = (Returned (Some (attach_all NetworkMap toLowerCase cliNetwork flatContracts requestContracts)), t).
Proof.
  induction flatContracts as [|c rest IH]; intros rcs t Hall; [done|].
  destruct (Hall c ltac:(left)) as [n Hn].
  rewrite attach_all_cons. unfold attach_step. simpl. rewrite Hn.
  fold (name_is (name c)).
  destruct (JS.findIndex (name_is (name c)) rcs);
    apply IH; intros c' Hc'; apply Hall; by right.
Qed.

Lemma attach_networks_unresolved flatContracts : ∀ requestContracts t c,
  c ∈ flatContracts → Tenderly.resolve_network cliNetwork c = None →
  Tenderly.attach_networks PluginName NetworkMap toLowerCase cliNetwork flatContracts
    requestContracts t
  = (Returned None, t ++ [ConsoleLog (Tenderly.network_error PluginName)]).
Proof.
  induction flatContracts as [|c0 rest IH]; intros rcs t c Hc Hnone;
    [by apply elem_of_nil in Hc|]. simpl.
  destruct (Tenderly.resolve_network cliNetwork c0) as [n|] eqn:Hn; [|done].
  apply elem_of_cons in Hc as [->|Hc]; [congruence|].
  destruct (JS.findIndex _ rcs); by apply (IH _ _ c).
Qed.

Lemma resolved_all_or_not (flatContracts : list ContractByName) :
  (∀ c, c ∈ flatContracts → resolved c) ∨
  (∃ c, c ∈ flatContracts ∧ Tenderly.resolve_network cliNetwork c = None).
Proof.
  induction flatContracts as [|c rest [IH|(c' & Hc' & Hn)]].
  - left. by intros c ?%elem_of_nil.
  - destruct (Tenderly.resolve_network cliNetwork c) as [n|] eqn:Hn.
    + left. intros c' [->|?]%elem_of_cons; [by eexists|auto].
    + right. exists c. split; [left|done].
  - right. exists c'. split; [by right|done].
Qed.

Lemma findIndex_lookup {A} (p : A → bool) xs : ∀ i,
  JS.findIndex p xs = Some i → ∃ x, xs !! i = Some x ∧ p x = true.
Proof.
  induction xs as [|x xs IH]; intros i; simpl; [done|].
  destruct (p x) eqn:Hp.
  - intros [= <-]. by exists x.
  - destruct (JS.findIndex p xs) as [j|]; [|done]. intros [= <-].
    destruct (IH j eq_refl) as (y & ? & ?). by exists y.
Qed.

Lemma findIndex_alter n f xs : ∀ i,
  (∀ rc, contractName (f rc) = contractName rc) →
  JS.findIndex (name_is n) (alter f i xs) = JS.findIndex (name_is n) xs.
Proof.
  intros i Hf. revert i. induction xs as [|x xs IH]; intros [|i]; simpl; try done.
  - assert (name_is n (f x) = name_is n x) as ->; [|done].
    unfold name_is. by rewrite Hf.
  - destruct (name_is n x); [done|]. f_equal. apply IH.
Qed.

Lemma findIndex_attach_step n rcs c :
  JS.findIndex (name_is n) (attach_step NetworkMap toLowerCase cliNetwork rcs c)
  = JS.findIndex (name_is n) rcs.
Proof.
  unfold attach_step. destruct (Tenderly.resolve_network cliNetwork c); [|done].
  destruct (JS.findIndex (name_is (name c)) rcs); [|done].
  by apply findIndex_alter.
Qed.

Lemma last_with_name_cons n c rest :
  last_with_name n (c :: rest) =
    match last_with_name n rest with
    | Some c' => Some c'
    | None => if String.eqb (name c) n then Some c else None
    end.
Proof.
  unfold last_with_name. simpl. destruct (String.eqb (name c) n).
  - apply last_cons.
  - by destruct (last _).
Qed.

Lemma last_with_name_elem n (flatContracts : list ContractByName) c :
  last_with_name n flatContracts = Some c → c ∈ flatContracts ∧ name c = n.
Proof.
  unfold last_with_name. intros H%last_Some_elem_of.
  apply list_elem_of_In, List.filter_In in H as [H E].
  split; [by apply list_elem_of_In|by apply String.eqb_eq].
Qed.

Lemma attach_all_first flatContracts : ∀ rcs i rc,
  (∀ c, c ∈ flatContracts → resolved c) →
  rcs !! i = Some rc →
  JS.findIndex (name_is (contractName rc)) rcs = Some i →
  attach_all NetworkMap toLowerCase cliNetwork flatContracts rcs !! i
  = Some (attached NetworkMap toLowerCase cliNetwork flatContracts rc).
Proof.
  induction flatContracts as [|c rest IH]; intros rcs i rc Hall Hi Hfirst; [done|].
  assert (Hrest : ∀ c', c' ∈ rest → resolved c') by (intros; apply Hall; by right).
  destruct (Hall c ltac:(left)) as [n Hn].
  rewrite attach_all_cons.
  unfold attached. rewrite last_with_name_cons.
  destruct (String.eqb (name c) (contractName rc)) eqn:E.
  - apply String.eqb_eq in E.
    assert (Hstep : attach_step NetworkMap toLowerCase cliNetwork rcs c !! i =
              Some (Tenderly.set_networks
                      (Tenderly.networks_entry NetworkMap toLowerCase n (address c)) rc)).
    { unfold attach_step. rewrite Hn, E, Hfirst.
      rewrite list_lookup_alter_eq, Hi. done. }
    rewrite (IH _ i _ Hrest Hstep) by (simpl; by rewrite findIndex_attach_step).
    unfold attached. simpl.
    destruct (last_with_name (contractName rc) rest) as [c'|] eqn:Hlast; [|by rewrite Hn].
    apply last_with_name_elem in Hlast as [Hc' _].
    by destruct (Hrest c' Hc') as [n' ->].
  - assert (Hstep : attach_step NetworkMap toLowerCase cliNetwork rcs c !! i = Some rc).
    { unfold attach_step. rewrite Hn.
      destruct (JS.findIndex (name_is (name c)) rcs) as [j|] eqn:Hj; [|done].
      rewrite list_lookup_alter_ne; [done|]. intros ->.
      destruct (findIndex_lookup _ _ _ Hj) as (x & Hx & Hp).
      unfold name_is in Hp. assert (x = rc) as -> by congruence.
      rewrite String.eqb_sym in Hp. congruence. }
    rewrite (IH _ i _ Hrest Hstep) by (by rewrite findIndex_attach_step).
    unfold attached. by destruct (last_with_name (contractName rc) rest).
Qed.

Lemma attach_all_other flatContracts : ∀ rcs i rc,
  rcs !! i = Some rc →
  JS.findIndex (name_is (contractName rc)) rcs ≠ Some i →
  attach_all NetworkMap toLowerCase cliNetwork flatContracts rcs !! i = Some rc.
Proof.
  induction flatContracts as [|c rest IH]; intros rcs i rc Hi Hnot; [done|].
  rewrite attach_all_cons.
  apply IH; [|by rewrite findIndex_attach_step].
  unfold attach_step. destruct (Tenderly.resolve_network cliNetwork c); [|done].
  destruct (JS.findIndex (name_is (name c)) rcs) as [j|] eqn:Hj; [|done].
  rewrite list_lookup_alter_ne; [done|]. intros ->.
  destruct (findIndex_lookup _ _ _ Hj) as (x & Hx & Hp).
  assert (x = rc) as -> by congruence.
  unfold name_is in Hp. apply String.eqb_eq in Hp. rewrite <- Hp in Hj. done.
Qed.

Lemma attach_all_length flatContracts : ∀ rcs,
  length (attach_all NetworkMap toLowerCase cliNetwork flatContracts rcs) = length rcs.
Proof.
  induction flatContracts as [|c rest IH]; intros rcs; [done|].
  rewrite attach_all_cons.
  rewrite IH. unfold attach_step.
  destruct (Tenderly.resolve_network cliNetwork c); [|done].
  destruct (JS.findIndex _ rcs); [|done]. apply length_alter.
Qed.
End AttachLemmas.

(** ** Network resolution and [filterContracts] *)

(** Expose the first operation of a sequence, and a guarded service call. *)
Ltac step_op := unfold mbind, Op_bind, bind.
Ltac run_call := unfold try_catch, mbind, Op_bind, bind, emit.

Lemma resolve_network_rule cliNetwork contract :
  Tenderly.resolve_network cliNetwork contract
  = three_branch_network cliNetwork contract.
Proof.
  unfold Tenderly.resolve_network, three_branch_network, classify_cli, JS.or_else,
    JS.truthy.
  destruct cliNetwork as [s|]; [|done].
  destruct (String.eqb s "hardhat") eqn:E.
  - apply String.eqb_eq in E. subst. done.
  - rewrite bool_decide_eq_false_2.
    + simpl. by destruct (String.eqb s "").
    + intros [= ->]. by rewrite String.eqb_refl in E.
Qed.

Section FilterContracts.
Context (PluginName : string) (NetworkMap : gmap string string)
        (toLowerCase : string -> string).

Local Abbreviation filterContracts := (Tenderly.filterContracts PluginName NetworkMap toLowerCase).
Local Abbreviation verify := (Tenderly.verify PluginName NetworkMap toLowerCase).
Local Abbreviation push := (Tenderly.push PluginName NetworkMap toLowerCase).

Lemma filterContracts_resolved env flatContracts t :
  (∀ c, c ∈ flatContracts →
        is_Some (Tenderly.resolve_network (hardhatArguments_network env) c)) →
  filterContracts env flatContracts t
  = (Returned
       (Some {| contracts :=
                  attach_all NetworkMap toLowerCase (hardhatArguments_network env) flatContracts
                    (Tenderly.getContracts env flatContracts);
                config := newCompilerConfig (env_config env) |}), t).
Proof.
  intros Hall. unfold Tenderly.filterContracts; step_op.
  by rewrite (attach_networks_resolved _ _ _ _ _ _ _ Hall).
Qed.

Lemma filterContracts_unresolved env flatContracts t c :
  c ∈ flatContracts →
  Tenderly.resolve_network (hardhatArguments_network env) c = None →
  filterContracts env flatContracts t
  = (Returned None, t ++ [ConsoleLog (Tenderly.network_error PluginName)]).
Proof.
  intros Hc Hnone. unfold Tenderly.filterContracts; step_op.
  by rewrite (attach_networks_unresolved _ _ _ _ _ _ _ c Hc Hnone).
Qed.

Lemma filterContracts_cases env flatContracts t :
  (∃ req, filterContracts env flatContracts t = (Returned (Some req), t)) ∨
  filterContracts env flatContracts t
  = (Returned None, t ++ [ConsoleLog (Tenderly.network_error PluginName)]).
Proof.
  destruct (resolved_all_or_not (hardhatArguments_network env) flatContracts)
    as [Hall|(c & Hc & Hnone)].
  - left. eexists. by apply filterContracts_resolved.
  - right. by apply (filterContracts_unresolved _ _ _ c).
Qed.

(** C1.  For every requested contract, [filterContracts] resolves the
    target network by the three-branch rule: when the CLI network argument
    is not the sentinel [hardhat], that argument is used when present (that
    is, defined and not the empty string, which is what [||] tests) and
    otherwise the contract's own declared network; when the argument is
    [hardhat], the contract's own declared network is used.  The network
    expression of the loop equals the rule; a requested contract for which
    the rule yields nothing makes the call log the error and return
    [null]; and when the rule yields a network for every requested
    contract, the request is returned and the first entry of a requested
    name carries the network entry built from the rule's network of the
    last requested contract of that name. *)
Theorem filterContracts_three_branch_rule env flatContracts t :
  let cliNetwork := hardhatArguments_network env in
  let requestContracts := Tenderly.getContracts env flatContracts in
  (∀ c, Tenderly.resolve_network cliNetwork c = three_branch_network cliNetwork c) ∧
  (∀ c, c ∈ flatContracts → three_branch_network cliNetwork c = None →
        filterContracts env flatContracts t
        = (Returned None, t ++ [ConsoleLog (Tenderly.network_error PluginName)])) ∧
  ((∀ c, c ∈ flatContracts → is_Some (three_branch_network cliNetwork c)) →
   ∃ req,
     filterContracts env flatContracts t = (Returned (Some req), t) ∧
     ∀ i rc c,
       requestContracts !! i = Some rc →
       JS.findIndex (name_is (contractName rc)) requestContracts = Some i →
       last_with_name (contractName rc) flatContracts = Some c →
       ∃ n, three_branch_network cliNetwork c = Some n ∧
            contracts req !! i =
              Some (Tenderly.set_networks
                      (Tenderly.networks_entry NetworkMap toLowerCase n (address c)) rc)).
Proof.
  cbv zeta. split_and!.
  - intros c. apply resolve_network_rule.
  - intros c Hc Hnone. apply (filterContracts_unresolved _ _ _ c Hc).
    by rewrite resolve_network_rule.
  - intros Hall.
    assert (Hall' : ∀ c, c ∈ flatContracts →
              is_Some (Tenderly.resolve_network (hardhatArguments_network env) c)).
    { intros c Hc. rewrite resolve_network_rule. by apply Hall. }
    eexists. split; [by apply filterContracts_resolved|].
    intros i rc c Hi Hfirst Hlast.
    destruct (last_with_name_elem _ _ _ Hlast) as [Hc _].
    destruct (Hall' c Hc) as [n Hn]. exists n.
    split; [by rewrite <- resolve_network_rule|]. simpl.
    rewrite (attach_all_first NetworkMap toLowerCase _ _ _ _ _ Hall' Hi Hfirst).
    unfold attached. by rewrite Hlast, Hn.
Qed.

(** C2.  If the network of any requested contract cannot be determined
    (the CLI network argument is the sentinel, undefined or empty, and the
    contract declares no network), [filterContracts] returns [null] for the
    whole batch, and [verify] calls no remote endpoint: it returns after
    the two log lines, the network error of [filterContracts] and its own
    failure message. *)
Theorem unresolved_network_aborts_batch env service contracts t c :
  c ∈ Tenderly.flatten contracts →
  network c = None →
  hardhatArguments_network env = Some "hardhat" ∨
    JS.truthy (hardhatArguments_network env) = false →
  filterContracts env (Tenderly.flatten contracts) t
    = (Returned None, t ++ [ConsoleLog (Tenderly.network_error PluginName)]) ∧
  verify env service contracts t
    = (Returned tt,
       t ++ [ConsoleLog (Tenderly.network_error PluginName);
             ConsoleLog "Verification failed"]) ∧
  service_calls (snd (verify env service contracts t)) = service_calls t.
Proof.
  intros Hc Hnet Hcli.
  assert (Hnone : Tenderly.resolve_network (hardhatArguments_network env) c = None).
  { unfold Tenderly.resolve_network, JS.or_else. destruct Hcli as [->| ->]; [|].
    - by rewrite bool_decide_eq_true_2.
    - by destruct (negb _). }
  pose proof (filterContracts_unresolved env _ t c Hc Hnone) as Hf.
  assert (Hv : verify env service contracts t
    = (Returned tt,
       t ++ [ConsoleLog (Tenderly.network_error PluginName);
             ConsoleLog "Verification failed"])).
  { unfold Tenderly.verify; step_op. rewrite Hf.
    unfold console_log, emit. by rewrite <- app_assoc. }
  split_and!; [done|done|].
  rewrite Hv. simpl. unfold service_calls.
  rewrite List.filter_app. simpl. by rewrite app_nil_r.
Qed.

(** C6.  [verify] and [push] never propagate an exception of the remote
    call: both always return normally, and when the service call rejects
    with an error, that error's message is the line logged after the
    call. *)
Theorem verify_push_swallow_transport_errors env service contracts t :
  fst (verify env service contracts t) = Returned tt ∧
  fst (push env service contracts t) = Returned tt ∧
  (∀ req t' err,
     filterContracts env (Tenderly.flatten contracts) t = (Returned (Some req), t') →
     verifyContracts service req = Some err →
     verify env service contracts t
     = (Returned tt, t' ++ [VerifyContracts req; ConsoleLog (message err)])) ∧
  (∀ req t' err tenderlyProject tenderlyUsername,
     filterContracts env (Tenderly.flatten contracts) t = (Returned (Some req), t') →
     project (tenderly (env_config env)) = Some tenderlyProject →
     username (tenderly (env_config env)) = Some tenderlyUsername →
     pushContracts service req tenderlyProject tenderlyUsername = Some err →
     push env service contracts t
     = (Returned tt,
        t' ++ [PushContracts req tenderlyProject tenderlyUsername;
               ConsoleLog (message err)])).
Proof.
  split_and!.
  - unfold Tenderly.verify; step_op.
    destruct (filterContracts_cases env (Tenderly.flatten contracts) t)
      as [[req ->]| ->]; [|done].
    unfold Tenderly.call_verifyContracts; run_call.
    by destruct (verifyContracts service req).
  - unfold Tenderly.push; step_op.
    destruct (filterContracts_cases env (Tenderly.flatten contracts) t)
      as [[req ->]| ->];
      destruct (project (tenderly (env_config env))) as [p|]; try done;
      destruct (username (tenderly (env_config env))) as [u|]; try done.
    unfold Tenderly.call_pushContracts; run_call.
    by destruct (pushContracts service req p u).
  - intros req t' err Hf Herr.
    unfold Tenderly.verify; step_op. rewrite Hf.
    unfold Tenderly.call_verifyContracts; run_call.
    rewrite Herr. unfold throw, console_log, emit. by rewrite <- app_assoc.
  - intros req t' err p u Hf Hp Hu Herr.
    unfold Tenderly.push; step_op. rewrite Hf, Hp, Hu.
    unfold Tenderly.call_pushContracts; run_call.
    rewrite Herr. unfold throw, console_log, emit. by rewrite <- app_assoc.
Qed.

(** C7, as amended.  If the project or the username of the configuration
    is undefined, [push] returns without invoking the remote push endpoint
    and logs exactly one line of its own, the project line or else the
    username line, after whatever [filterContracts] logged before; that
    line is the only one when every requested contract's network
    resolves. *)
Theorem push_without_project_or_username env service contracts t :
  project (tenderly (env_config env)) = None ∨
    username (tenderly (env_config env)) = None →
  ∃ requestData t0,
    filterContracts env (Tenderly.flatten contracts) t = (Returned requestData, t0) ∧
    push env service contracts t
      = (Returned tt,
         t0 ++ [ConsoleLog
                  (match project (tenderly (env_config env)) with
                   | None => Tenderly.project_error PluginName
                   | Some _ => Tenderly.username_error PluginName
                   end)]) ∧
    service_calls (snd (push env service contracts t)) = service_calls t ∧
    ((∀ c, c ∈ Tenderly.flatten contracts →
           is_Some (Tenderly.resolve_network (hardhatArguments_network env) c)) →
     t0 = t).
Proof.
  intros Hmissing.
  assert (Hpush : ∀ requestData t0,
    filterContracts env (Tenderly.flatten contracts) t = (Returned requestData, t0) →
    push env service contracts t
      = (Returned tt,
         t0 ++ [ConsoleLog
                  (match project (tenderly (env_config env)) with
                   | None => Tenderly.project_error PluginName
                   | Some _ => Tenderly.username_error PluginName
                   end)])).
  { intros r t0 Hf. unfold Tenderly.push; step_op. rewrite Hf.
    destruct (project (tenderly (env_config env))) as [p|]; [|done].
    destruct Hmissing as [?| ->]; done. }
  assert (Hcalls : ∀ t' line,
            service_calls (t' ++ [ConsoleLog line]) = service_calls t').
  { intros t' line. unfold service_calls. rewrite List.filter_app. simpl.
    by rewrite app_nil_r. }
  destruct (resolved_all_or_not (hardhatArguments_network env)
              (Tenderly.flatten contracts)) as [Hall|(c & Hc & Hnone)].
  - pose proof (filterContracts_resolved env _ t Hall) as Hf.
    eexists _, t. split_and!; [exact Hf|exact (Hpush _ _ Hf)| |done].
    rewrite (Hpush _ _ Hf). apply Hcalls.
  - pose proof (filterContracts_unresolved env _ t c Hc Hnone) as Hf.
    eexists _, _. split_and!; [exact Hf|exact (Hpush _ _ Hf)| |].
    + rewrite (Hpush _ _ Hf). simpl. by rewrite !Hcalls.
    + intros Hall. destruct (Hall c Hc) as [n Hn]. congruence.
Qed.

End FilterContracts.

Lemma inherited_nothing k :
  k ∉ JS.Object_prototype_names → JS.inherited k = JS.Undefined.
Proof.
  unfold JS.Object_prototype_names, JS.inherited. intros Hk.
  destruct (String.eqb k "__proto__") eqn:E1.
  { apply String.eqb_eq in E1. subst. exfalso. apply Hk. left. }
  destruct (String.eqb k "constructor") eqn:E2.
  { apply String.eqb_eq in E2. subst. exfalso. apply Hk. right. left. }
  rewrite bool_decide_eq_false_2; [done|]. intros Hin. apply Hk. by right.
Qed.

Section Requests.
Context (PluginName : string) (NetworkMap : gmap string string)
        (toLowerCase : string -> string).

Local Abbreviation filterContracts := (Tenderly.filterContracts PluginName NetworkMap toLowerCase).

(** C3, as amended.  The result of the table lookup is not checked: when
    every requested contract resolves to some network name, the request is
    assembled and nothing is logged.  An entry attached under a name whose
    lower-cased form the table does not hold gets the single key that the
    lookup on the plain object then yields, with the contract's address:
    the key [undefined], unless the lower-cased name is one of the names
    every object inherits a member under ([constructor], [__proto__] and the
    like), in which case it is that member turned into a key. *)
Theorem unmapped_network_not_checked env flatContracts t :
  (∀ c, c ∈ flatContracts →
        is_Some (Tenderly.resolve_network (hardhatArguments_network env) c)) →
  ∃ req,
    filterContracts env flatContracts t = (Returned (Some req), t) ∧
    ∀ i rc c n,
      Tenderly.getContracts env flatContracts !! i = Some rc →
      JS.findIndex (name_is (contractName rc))
        (Tenderly.getContracts env flatContracts) = Some i →
      last_with_name (contractName rc) flatContracts = Some c →
      Tenderly.resolve_network (hardhatArguments_network env) c = Some n →
      NetworkMap !! toLowerCase n = None →
      contracts req !! i
      = Some (Tenderly.set_networks
                [(JS.computed_key (JS.inherited (toLowerCase n)), address c)] rc) ∧
      (toLowerCase n ∉ JS.Object_prototype_names →
       contracts req !! i
       = Some (Tenderly.set_networks [("undefined", address c)] rc)).
Proof.
  intros Hall. eexists. split; [by apply filterContracts_resolved|].
  intros i rc c n Hi Hfirst Hlast Hn Hnone. simpl.
  rewrite (attach_all_first NetworkMap toLowerCase _ _ _ _ _ Hall Hi Hfirst).
  unfold attached. rewrite Hlast, Hn.
  unfold Tenderly.networks_entry, JS.get_property. rewrite Hnone.
  split; [done|]. intros Hnot. by rewrite inherited_nothing.
Qed.

(** C10.  In the request [filterContracts] returns, the [networks] of
    every entry holds at most one network/address pair.  Each assignment
    replaces the whole object: the first entry of a requested name holds
    the pair of the last requested contract of that name, and every other
    entry is left with empty [networks]. *)
Theorem filterContracts_networks_last_wins env flatContracts t req t' :
  filterContracts env flatContracts t = (Returned (Some req), t') →
  let requestContracts := Tenderly.getContracts env flatContracts in
  length (contracts req) = length requestContracts ∧
  (∀ rc, rc ∈ contracts req → length (networks rc) ≤ 1) ∧
  (∀ i rc c,
     requestContracts !! i = Some rc →
     JS.findIndex (name_is (contractName rc)) requestContracts = Some i →
     last_with_name (contractName rc) flatContracts = Some c →
     ∃ n, Tenderly.resolve_network (hardhatArguments_network env) c = Some n ∧
          contracts req !! i =
            Some (Tenderly.set_networks
                    (Tenderly.networks_entry NetworkMap toLowerCase n (address c)) rc)) ∧
  (∀ i rc,
     requestContracts !! i = Some rc →
     JS.findIndex (name_is (contractName rc)) requestContracts ≠ Some i ∨
       last_with_name (contractName rc) flatContracts = None →
     contracts req !! i = Some rc ∧ networks rc = []).
Proof.
  intros Hreq. cbv zeta.
  destruct (resolved_all_or_not (hardhatArguments_network env) flatContracts)
    as [Hall|(c & Hc & Hnone)].
  2:{ rewrite (filterContracts_unresolved _ _ _ _ _ _ c Hc Hnone) in Hreq. done. }
  rewrite (filterContracts_resolved _ _ _ _ _ _ Hall) in Hreq.
  injection Hreq as <- <-. simpl.
  destruct (getContracts_spec env flatContracts) as (_ & _ & Hentries).
  assert (Hfirst : ∀ i rc c,
     Tenderly.getContracts env flatContracts !! i = Some rc →
     JS.findIndex (name_is (contractName rc))
       (Tenderly.getContracts env flatContracts) = Some i →
     last_with_name (contractName rc) flatContracts = Some c →
     ∃ n, Tenderly.resolve_network (hardhatArguments_network env) c = Some n ∧
          attach_all NetworkMap toLowerCase (hardhatArguments_network env) flatContracts
            (Tenderly.getContracts env flatContracts) !! i =
            Some (Tenderly.set_networks
                    (Tenderly.networks_entry NetworkMap toLowerCase n (address c)) rc)).
  { intros i rc c Hi Hf Hlast.
    destruct (last_with_name_elem _ _ _ Hlast) as [Hc _].
    destruct (Hall c Hc) as [n Hn]. exists n. split; [done|].
    rewrite (attach_all_first NetworkMap toLowerCase _ _ _ _ _ Hall Hi Hf).
    unfold attached. by rewrite Hlast, Hn. }
  assert (Hother : ∀ i rc,
     Tenderly.getContracts env flatContracts !! i = Some rc →
     JS.findIndex (name_is (contractName rc))
       (Tenderly.getContracts env flatContracts) ≠ Some i ∨
       last_with_name (contractName rc) flatContracts = None →
     attach_all NetworkMap toLowerCase (hardhatArguments_network env) flatContracts
       (Tenderly.getContracts env flatContracts) !! i = Some rc ∧
     networks rc = []).
  { intros i rc Hi Hcase. split.
    2:{ apply Hentries. by eapply list_elem_of_lookup_2. }
    destruct (decide (JS.findIndex (name_is (contractName rc))
                        (Tenderly.getContracts env flatContracts) = Some i))
      as [Hf|Hf].
    - destruct Hcase as [?|Hlast]; [done|].
      rewrite (attach_all_first NetworkMap toLowerCase _ _ _ _ _ Hall Hi Hf).
      unfold attached. by rewrite Hlast.
    - by apply attach_all_other. }
  split_and!; [apply attach_all_length| |exact Hfirst|exact Hother].
  intros rc' [i Hi']%list_elem_of_lookup_1.
  assert (is_Some (Tenderly.getContracts env flatContracts !! i)) as [rc Hi].
  { apply lookup_lt_is_Some. rewrite <- (attach_all_length NetworkMap toLowerCase
      (hardhatArguments_network env) flatContracts).
    by eapply lookup_lt_Some. }
  destruct (decide (JS.findIndex (name_is (contractName rc))
                      (Tenderly.getContracts env flatContracts) = Some i))
    as [Hf|Hf].
  - destruct (last_with_name (contractName rc) flatContracts) as [c|] eqn:Hlast.
    + destruct (Hfirst i rc c Hi Hf Hlast) as (n & _ & Hi'').
      rewrite Hi' in Hi''. injection Hi'' as ->. simpl. lia.
    + destruct (Hother i rc Hi (or_intror Hlast)) as [Hi'' Hnil].
      rewrite Hi' in Hi''. injection Hi'' as ->. rewrite Hnil. simpl. lia.
  - destruct (Hother i rc Hi (or_introl Hf)) as [Hi'' Hnil].
    rewrite Hi' in Hi''. injection Hi'' as ->. rewrite Hnil. simpl. lia.
Qed.
End Requests.


Lemma lookup_file_NoDup data f :
  NoDup (sourceName <$> data) → f ∈ data → lookup_file data (sourceName f) = Some f.
Proof.
  induction data as [|g rest IH]; [by intros _ ?%elem_of_nil|].
  intros [Hg Hrest]%NoDup_cons [->|Hf]%elem_of_cons; simpl.
  - by rewrite String.eqb_refl.
  - destruct (String.eqb (sourceName g) (sourceName f)) eqn:E; [|auto].
    apply String.eqb_eq in E. exfalso. apply Hg. rewrite E.
    by apply list_elem_of_fmap_2.
Qed.

Lemma filter_key_NoDup (obj : list (string * string)) k v :
  NoDup (JS.keys obj) → (k, v) ∈ obj →
  List.filter (fun entry => String.eqb (fst entry) k) obj = [(k, v)].
Proof.
  unfold JS.keys. induction obj as [|[k' v'] rest IH]; [by intros _ ?%elem_of_nil|].
  intros [Hk' Hrest]%NoDup_cons Hin. simpl in *.
  assert (Hnone : k' ∉ map fst rest →
            List.filter (fun entry => String.eqb (fst entry) k') rest = []).
  { clear. induction rest as [|[a b] rest IH]; [done|]. simpl.
    intros Hn. destruct (String.eqb a k') eqn:E.
    - apply String.eqb_eq in E. subst. exfalso. apply Hn. left.
    - apply IH. intros ?. apply Hn. by right. }
  apply elem_of_cons in Hin as [[= -> ->]|Hin].
  - rewrite String.eqb_refl. f_equal. by apply Hnone.
  - destruct (String.eqb k' k) eqn:E; [|auto].
    apply String.eqb_eq in E. subst. exfalso. apply Hk'.
    by apply (list_elem_of_fmap_2 fst) in Hin.
Qed.

Lemma filter_contractToPush version k (obj : list (string * string)) :
  List.filter (fun rc => String.eqb (sourcePath rc) k)
    (map (Tenderly.contractToPush version) obj)
  = map (Tenderly.contractToPush version)
      (List.filter (fun entry => String.eqb (fst entry) k) obj).
Proof.
  induction obj as [|[k' v] rest IH]; [done|]. simpl.
  destruct (String.eqb k' k); simpl; by rewrite IH.
Qed.

(** C9.  When the source files of two requested contracts both import the
    same library file, the assembled [metadata.sources] holds exactly one
    entry under the library's path, with the library's raw content, and so
    the request holds exactly one entry of that path. *)
Theorem shared_library_recorded_once env flatContracts a b lib ca cb :
  let data := dependency_graph env in
  NoDup (sourceName <$> data) →
  a ∈ data → b ∈ data → lib ∈ data →
  ca ∈ flatContracts → cb ∈ flatContracts →
  name ca = Tenderly.contract_name_of (sourceName a) →
  name cb = Tenderly.contract_name_of (sourceName b) →
  sourceName lib ∈ imports a → sourceName lib ∈ imports b →
  let metadata :=
    Tenderly.collect_sources data flatContracts
      {| compiler := solidity_version (env_config env); sources := [] |} in
  List.filter (fun entry => String.eqb (fst entry) (sourceName lib)) (sources metadata)
    = [(sourceName lib, rawContent lib)] ∧
  List.filter (fun rc => String.eqb (sourcePath rc) (sourceName lib))
    (Tenderly.getContracts env flatContracts)
    = [Tenderly.contractToPush (solidity_version (env_config env))
         (sourceName lib, rawContent lib)].
Proof.
  cbv zeta.
  intros Hnd Ha Hb Hlib Hca Hcb Hna Hnb Hia Hib.
  destruct (collect_files_spec (dependency_graph env) flatContracts (dependency_graph env)
              {| compiler := solidity_version (env_config env); sources := [] |})
    as (_ & Hkeys & Hof & Hk); [done|].
  fold (Tenderly.collect_sources (dependency_graph env) flatContracts
          {| compiler := solidity_version (env_config env); sources := [] |}) in *.
  set (md := Tenderly.collect_sources _ _ _) in *. simpl in *.
  assert (Hin : sourceName lib ∈ JS.keys (sources md)).
  { apply Hk. right. exists a. split_and!; [done|by exists ca| |by apply elem_in_graph].
    apply rtc_once. exists a. split; [by apply lookup_file_NoDup|done]. }
  apply list_elem_of_fmap in Hin as ([k v] & Hkey & Hentry). simpl in Hkey. subst k.
  destruct (Hof ltac:(by intros ? ? ?%elem_of_nil) _ _ Hentry) as (f & Hf & Hname & Hcontent).
  assert (f = lib) as ->.
  { pose proof (lookup_file_NoDup _ f Hnd Hf) as H1.
    pose proof (lookup_file_NoDup _ lib Hnd Hlib) as H2.
    rewrite Hname in H1. congruence. }
  subst v.
  assert (Hfilter : List.filter (fun entry => String.eqb (fst entry) (sourceName lib))
                      (sources md) = [(sourceName lib, rawContent lib)]).
  { apply filter_key_NoDup; [apply Hkeys; constructor|done]. }
  split; [done|].
  unfold Tenderly.getContracts. fold md.
  by rewrite filter_contractToPush, Hfilter.
Qed.

(** ** The properties at sample inputs *)

Example contract_name_of_path :
  Tenderly.contract_name_of "contracts/lib/SafeMath.sol" = "SafeMath".
Proof. reflexivity. Qed.

Example split_keeps_empty_segments :
  JS.split "/" "contracts//Token.sol/" = ["contracts"; ""; "Token.sol"; ""].
Proof. reflexivity. Qed.

Example contract_name_stops_at_first_dot :
  Tenderly.contract_name_of "contracts/Token.v2.sol" = "Token".
Proof. reflexivity. Qed.

Example network_name_is_lowered :
  Tenderly.networks_entry sample_NetworkMap JS.toLowerCase_ascii "Ropsten" "0xabc" = [("3", "0xabc")].
Proof. vm_compute. reflexivity. Qed.

Example walk_through_cycle_and_diamond :
  walk_recorded
    (resolveDependencies sample_graph "contracts/Vault.sol"
       {| compiler := "0.8.0"; sources := [] |} ∅)
  = ["contracts/Vault.sol"; "contracts/lib/SafeMath.sol"; "contracts/Token.sol"].
Proof. vm_compute. reflexivity. Qed.

Example verify_logs_transport_error :
  logged
    (snd (Tenderly.verify "hardhat-tenderly" sample_NetworkMap JS.toLowerCase_ascii
            (sample_env (Some "ropsten") (Some "demo") (Some "dev")) failing_service
            [[Token_at "0xabc" None]] []))
  = ["Request failed with status code 401"].
Proof. vm_compute. reflexivity. Qed.

Lemma unresolved_network_aborts_batch_witness :
  Tenderly.verify "hardhat-tenderly" sample_NetworkMap JS.toLowerCase_ascii
    (sample_env None (Some "demo") (Some "dev")) quiet_service
    [[Token_at "0xabc" (Some "ropsten")]; [Vault_at "0xdef" None]] []
  = (Returned tt,
     [ConsoleLog (Tenderly.network_error "hardhat-tenderly");
      ConsoleLog "Verification failed"]).
Proof.
  refine (proj1 (proj2
    (unresolved_network_aborts_batch "hardhat-tenderly" sample_NetworkMap JS.toLowerCase_ascii
       (sample_env None (Some "demo") (Some "dev")) quiet_service
       [[Token_at "0xabc" (Some "ropsten")]; [Vault_at "0xdef" None]] []
       (Vault_at "0xdef" None) _ _ _))).
  - vm_compute. right. left.
  - reflexivity.
  - right. reflexivity.
Defined.

Lemma unmapped_network_counterexample :
  sample_NetworkMap !! JS.toLowerCase_ascii "atlantis" = None ∧
  Tenderly.filterContracts "hardhat-tenderly" sample_NetworkMap JS.toLowerCase_ascii
    (sample_env (Some "atlantis") (Some "demo") (Some "dev"))
    [Token_at "0xabc" None] []
  = (Returned
       (Some {| contracts := [Token_entry [("undefined", "0xabc")]; SafeMath_entry];
                config := newCompilerConfig (sample_config (Some "demo") (Some "dev")) |}),
     []).
Proof. split; vm_compute; reflexivity. Qed.

Lemma unmapped_network_not_checked_witness :
  ∃ req,
    Tenderly.filterContracts "hardhat-tenderly" sample_NetworkMap JS.toLowerCase_ascii
      (sample_env (Some "atlantis") (Some "demo") (Some "dev"))
      [Token_at "0xabc" None] []
    = (Returned (Some req), []) ∧
    contracts req !! 0 = Some (Token_entry [("undefined", "0xabc")]).
Proof.
  destruct (unmapped_network_not_checked "hardhat-tenderly" sample_NetworkMap JS.toLowerCase_ascii
              (sample_env (Some "atlantis") (Some "demo") (Some "dev"))
              [Token_at "0xabc" None] []) as (req & Hreq & Hkey).
  - intros c ->%list_elem_of_singleton. vm_compute. eauto.
  - exists req. split; [exact Hreq|].
    apply (Hkey 0 (Token_entry []) (Token_at "0xabc" None) "atlantis");
      try (vm_compute; reflexivity).
    apply (bool_decide_unpack _). vm_compute. reflexivity.
Defined.

Example inherited_member_attached_as_key :
  Tenderly.filterContracts "hardhat-tenderly" sample_NetworkMap JS.toLowerCase_ascii
    (sample_env (Some "constructor") (Some "demo") (Some "dev"))
    [Token_at "0xabc" None] []
  = (Returned
       (Some {| contracts :=
                  [Token_entry [("function Object() { [native code] }", "0xabc")];
                   SafeMath_entry];
                config := newCompilerConfig (sample_config (Some "demo") (Some "dev")) |}),
     []).
Proof. vm_compute. reflexivity. Qed.


Lemma push_logs_two_lines_counterexample :
  project (tenderly (env_config (sample_env None None (Some "dev")))) = None ∧
  Tenderly.push "hardhat-tenderly" sample_NetworkMap JS.toLowerCase_ascii
    (sample_env None None (Some "dev")) quiet_service
    [[Vault_at "0xdef" None]] []
  = (Returned tt,
     [ConsoleLog (Tenderly.network_error "hardhat-tenderly");
      ConsoleLog (Tenderly.project_error "hardhat-tenderly")]).
Proof. split; vm_compute; reflexivity. Qed.

Lemma push_without_project_or_username_witness :
  Tenderly.push "hardhat-tenderly" sample_NetworkMap JS.toLowerCase_ascii
    (sample_env (Some "ropsten") (Some "demo") None) quiet_service
    [[Vault_at "0xdef" None]] []
  = (Returned tt, [ConsoleLog (Tenderly.username_error "hardhat-tenderly")]).
Proof.
  destruct (push_without_project_or_username "hardhat-tenderly" sample_NetworkMap JS.toLowerCase_ascii
              (sample_env (Some "ropsten") (Some "demo") None) quiet_service
              [[Vault_at "0xdef" None]] []) as (r & t0 & Hf & Hpush & _ & Ht0).
  - right. reflexivity.
  - rewrite Hpush, Ht0; [reflexivity|].
    intros c Hc. vm_compute in Hc. apply list_elem_of_singleton in Hc as ->.
    vm_compute. eauto.
Defined.

Lemma shared_library_recorded_once_witness :
  List.filter (fun rc => String.eqb (sourcePath rc) "contracts/lib/SafeMath.sol")
    (Tenderly.getContracts (sample_env (Some "ropsten") (Some "demo") (Some "dev"))
       [Token_at "0xabc" None; Vault_at "0xdef" None])
  = [SafeMath_entry].
Proof.
  refine (proj2
    (shared_library_recorded_once (sample_env (Some "ropsten") (Some "demo") (Some "dev"))
       [Token_at "0xabc" None; Vault_at "0xdef" None]
       Token_sol Vault_sol SafeMath_sol
       (Token_at "0xabc" None) (Vault_at "0xdef" None) _ _ _ _ _ _ _ _ _ _)).
  - apply (bool_decide_unpack _). vm_compute. reflexivity.
  - left.
  - right. left.
  - right. right. left.
  - left.
  - right. left.
  - reflexivity.
  - reflexivity.
  - left.
  - left.
Defined.

Lemma filterContracts_networks_last_wins_witness :
  ∃ req,
    Tenderly.filterContracts "hardhat-tenderly" sample_NetworkMap JS.toLowerCase_ascii
      (sample_env (Some "hardhat") (Some "demo") (Some "dev"))
      [Token_at "0x01" (Some "mainnet"); Token_at "0x02" (Some "Ropsten")] []
    = (Returned (Some req), []) ∧
    contracts req !! 0 = Some (Token_entry [("3", "0x02")]).
Proof.
  eexists. split; [vm_compute; reflexivity|].
  destruct (filterContracts_networks_last_wins "hardhat-tenderly" sample_NetworkMap JS.toLowerCase_ascii
              (sample_env (Some "hardhat") (Some "demo") (Some "dev"))
              [Token_at "0x01" (Some "mainnet"); Token_at "0x02" (Some "Ropsten")] []
              _ [] ltac:(vm_compute; reflexivity)) as (_ & _ & Hlast & _).
  destruct (Hlast 0 (Token_entry []) (Token_at "0x02" (Some "Ropsten")))
    as (n & Hn & Hentry); [vm_compute; reflexivity..|].
  vm_compute in Hn. injection Hn as <-. exact Hentry.
Defined.

(** ** [persistArtifacts] *)

Lemma append_cons c (a b : string) :
  String.append (String c a) b = String c (String.append a b).
Proof. reflexivity. Qed.

Lemma list_ascii_of_append (a b : string) :
  list_ascii_of_string (String.append a b)
  = list_ascii_of_string a ++ list_ascii_of_string b.
Proof.
  induction a as [|c a IH]; [done|]. rewrite append_cons. simpl. by rewrite IH.
Qed.

Lemma append_inj_r (a b s : string) :
  String.append a s = String.append b s → a = b.
Proof.
  intros H. apply (f_equal list_ascii_of_string) in H.
  rewrite !list_ascii_of_append in H. apply app_inv_tail in H.
  apply (f_equal string_of_list_ascii) in H.
  by rewrite !string_of_list_ascii_of_string in H.
Qed.

Section PersistArtifacts.
Context (platform : Platform) (env : HardhatRuntimeEnvironment) (artifacts : string).

Local Abbreviation dest_file := (Persist.dest_file platform).
Local Abbreviation contractDataPath := (Persist.contractDataPath platform artifacts).
Local Abbreviation persist_one := (Persist.persist_one platform env artifacts).
Local Abbreviation persist_pairs := (Persist.persist_pairs platform env artifacts).
Local Abbreviation base_name f := (Tenderly.contract_name_of (sourceName f)).

Lemma dest_file_inj n m : dest_file n = dest_file m → n = m.
Proof.
  unfold Persist.dest_file. intros H.
  apply (inj (String.append _)) in H. by apply append_inj_r in H.
Qed.

(** One pair either throws and leaves the files as they were, or writes the
    destination of its name. *)
Lemma persist_one_cases f c (files : Files) :
  (∃ e, persist_one f c files = (Thrown e, files) ∧
        (files !! contractDataPath f = None → e = no_such_file (contractDataPath f))) ∨
  (∃ artifact,
     persist_one f c files
     = (Returned tt,
        <[dest_file (base_name f) := JSON_stringify_artifact platform artifact]> files) ∧
     artifact_address artifact = address c ∧
     artifact_metadata artifact
     = JSON_stringify_metadata platform (Persist.artifact_sources env f) ∧
     is_Some (files !! contractDataPath f)).
Proof.
  unfold Persist.persist_one, mbind, FsOp_bind, fs_bind, readFileSync, fs_lift,
    outputFileSync.
  destruct (files !! contractDataPath f) as [text|] eqn:Hread.
  2:{ left. eexists. split; [done|]. done. }
  destruct (JSON_parse platform text) as [contractData|e].
  2:{ left. exists e. split; [done|]. intros [=]. }
  destruct (member platform contractData "bytecode") as [bytecode|e].
  2:{ left. exists e. split; [done|]. intros [=]. }
  destruct (member platform contractData "deployedBytecode") as [deployedBytecode|e].
  2:{ left. exists e. split; [done|]. intros [=]. }
  destruct (member platform contractData "abi") as [abi|e].
  2:{ left. exists e. split; [done|]. intros [=]. }
  right. eexists. split; [reflexivity|]. simpl. by split_and!.
Qed.

Lemma persist_pairs_app l1 l2 (files : Files) :
  persist_pairs (l1 ++ l2) files =
    match persist_pairs l1 files with
    | (Returned _, files') => persist_pairs l2 files'
    | (Thrown e, files') => (Thrown e, files')
    end.
Proof.
  revert files. induction l1 as [|[f c] l1 IH]; intros files; [done|].
  simpl. unfold mbind, FsOp_bind, fs_bind.
  destruct (persist_one f c files) as [[[]|e] files1]; [apply IH|done].
Qed.

Lemma persist_for_file_pairs f contracts (files : Files) :
  Persist.persist_for_file platform env artifacts f contracts files
  = persist_pairs (map (pair f) (Persist.contracts_of_file f contracts)) files.
Proof.
  revert files. induction contracts as [|[c|cs] rest IH]; intros files; simpl; [done| |done].
  destruct (String.eqb (name c) (base_name f)); [|done].
  simpl. unfold mbind, FsOp_bind, fs_bind.
  destruct (persist_one f c files) as [[[]|e] files1]; [apply IH|done].
Qed.

Lemma persist_files_pairs resolvedFiles contracts (files : Files) :
  Persist.persist_files platform env artifacts resolvedFiles contracts files
  = persist_pairs (Persist.matched_pairs resolvedFiles contracts) files.
Proof.
  revert files. induction resolvedFiles as [|f rest IH]; intros files; [done|].
  simpl. rewrite persist_pairs_app. unfold mbind, FsOp_bind, fs_bind.
  rewrite persist_for_file_pairs.
  destruct (persist_pairs _ files) as [[[]|e] files1]; [apply IH|done].
Qed.

Lemma elem_of_contracts_of_file f contracts c :
  c ∈ Persist.contracts_of_file f contracts
  ↔ Single c ∈ contracts ∧ name c = base_name f.
Proof.
  induction contracts as [|[c'|cs] rest IH]; simpl.
  - rewrite !elem_of_nil. tauto.
  - destruct (String.eqb (name c') (base_name f)) eqn:E.
    + apply String.eqb_eq in E. rewrite !elem_of_cons, IH. split.
      * intros [->|[? ?]]; [split; [by left|done]|split; [by right|done]].
      * intros [[[= ->]|?] ?]; [by left|right; done].
    + rewrite IH, elem_of_cons. split; [intros [? ?]; split; [by right|done]|].
      intros [[[= ->]|?] Hn]; [|done]. rewrite Hn, String.eqb_refl in E. done.
  - rewrite IH, elem_of_cons. split; [intros [? ?]; split; [by right|done]|].
    intros [[[=]|?] ?]. done.
Qed.

Lemma elem_of_matched_pairs resolvedFiles contracts f c :
  (f, c) ∈ Persist.matched_pairs resolvedFiles contracts
  ↔ f ∈ resolvedFiles ∧ Single c ∈ contracts ∧ name c = base_name f.
Proof.
  induction resolvedFiles as [|g rest IH]; simpl.
  - rewrite !elem_of_nil. tauto.
  - rewrite elem_of_app, IH, list_elem_of_fmap, elem_of_cons. split.
    + intros [(c' & [= -> ->] & Hc)|(? & ? & ?)].
      * apply elem_of_contracts_of_file in Hc as [? ?]. split_and!; [by left|done..].
      * split_and!; [by right|done..].
    + intros ([->|?] & ? & ?); [left|right; done].
      exists c. split; [done|]. by apply elem_of_contracts_of_file.
Qed.

(** The files a run over pairs leaves: only destinations of the pairs'
    names may differ, and no file disappears. *)
Lemma persist_pairs_frame pairs : ∀ (files : Files),
  let files' := snd (persist_pairs pairs files) in
  (∀ p, (∀ f c, (f, c) ∈ pairs → p ≠ dest_file (base_name f)) →
        files' !! p = files !! p) ∧
  (∀ p, is_Some (files !! p) → is_Some (files' !! p)).
Proof.
  induction pairs as [|[f c] rest IH]; intros files; simpl; [done|].
  unfold mbind, FsOp_bind, fs_bind.
  destruct (persist_one_cases f c files) as [(e & -> & _)|(a & -> & _)]; simpl; [done|].
  destruct (IH (<[dest_file (base_name f) := JSON_stringify_artifact platform a]> files))
    as [IHframe IHkeep].
  split.
  - intros p Hp. rewrite IHframe.
    + apply lookup_insert_ne. intros Heq. by apply (Hp f c); [left|].
    + intros f' c' Hin. apply (Hp f' c'). by right.
  - intros p Hsome. apply IHkeep.
    destruct (decide (dest_file (base_name f) = p)) as [->|Hne].
    + rewrite lookup_insert_eq. by eexists.
    + by rewrite lookup_insert_ne.
Qed.

Lemma persist_pairs_missing pairs : ∀ (files : Files) f c,
  (f, c) ∈ pairs →
  files !! contractDataPath f = None →
  (∀ f' c', (f', c') ∈ pairs → contractDataPath f ≠ dest_file (base_name f')) →
  ∃ e, fst (persist_pairs pairs files) = Thrown e.
Proof.
  induction pairs as [|[g d] rest IH]; intros files f c Hin Hnone Hdest;
    [by apply elem_of_nil in Hin|].
  simpl. unfold mbind, FsOp_bind, fs_bind.
  destruct (persist_one_cases g d files) as [(e & -> & _)|(a & -> & _ & _ & Hsome)];
    [by eexists|].
  apply elem_of_cons in Hin as [[= <- <-]|Hin].
  { rewrite Hnone in Hsome. by destruct Hsome. }
  apply (IH _ f c Hin).
  - rewrite lookup_insert_ne; [done|]. intros Heq. by apply (Hdest g d); [left|].
  - intros f' c' Hin'. apply (Hdest f' c'). by right.
Qed.

Lemma last_pair_named_cons n p rest :
  Persist.last_pair_named n (p :: rest) =
    match Persist.last_pair_named n rest with
    | Some q => Some q
    | None => if String.eqb (base_name (fst p)) n then Some p else None
    end.
Proof.
  unfold Persist.last_pair_named. simpl.
  destruct (String.eqb (base_name (fst p)) n).
  - apply last_cons.
  - by destruct (last _).
Qed.

Lemma last_pair_named_None n pairs f c :
  Persist.last_pair_named n pairs = None → (f, c) ∈ pairs → base_name f ≠ n.
Proof.
  unfold Persist.last_pair_named. intros Hlast Hin Hname.
  apply last_None in Hlast.
  assert (Hf : (f, c) ∈ List.filter
            (fun p => String.eqb (base_name (fst p)) n) pairs).
  { apply list_elem_of_In, List.filter_In. split; [by apply list_elem_of_In|].
    simpl. by apply String.eqb_eq. }
  rewrite Hlast in Hf. by apply elem_of_nil in Hf.
Qed.

Lemma persist_pairs_last_wins pairs : ∀ (files files' : Files) n f c,
  persist_pairs pairs files = (Returned tt, files') →
  Persist.last_pair_named n pairs = Some (f, c) →
  ∃ artifact,
    files' !! dest_file n = Some (JSON_stringify_artifact platform artifact) ∧
    artifact_address artifact = address c ∧
    artifact_metadata artifact
    = JSON_stringify_metadata platform (Persist.artifact_sources env f).
Proof.
  induction pairs as [|[g d] rest IH]; intros files files' n f c Hrun Hlast; [done|].
  rewrite last_pair_named_cons in Hlast. simpl in Hrun.
  unfold mbind, FsOp_bind, fs_bind in Hrun.
  destruct (persist_one_cases g d files)
    as [(e & Hone & _)|(a & Hone & Haddr & Hmeta & _)]; rewrite Hone in Hrun; [done|].
  destruct (Persist.last_pair_named n rest) as [q|] eqn:Hrest.
  - injection Hlast as ->. by apply (IH _ _ _ _ _ Hrun).
  - simpl in Hlast. destruct (String.eqb (base_name g) n) eqn:E; [|done].
    injection Hlast as <- <-. apply String.eqb_eq in E. subst n.
    exists a. split_and!; [|done..].
    destruct (persist_pairs_frame rest
                (<[dest_file (base_name g) := JSON_stringify_artifact platform a]> files))
      as [Hframe _].
    rewrite Hrun in Hframe. simpl in Hframe. rewrite Hframe.
    + apply lookup_insert_eq.
    + intros f' c' Hin Heq. apply dest_file_inj in Heq.
      by apply (last_pair_named_None _ _ _ _ Hrest Hin).
Qed.
End PersistArtifacts.

Section PersistArtifactsProperties.
Context (platform : Platform) (env : HardhatRuntimeEnvironment) (artifacts : string).

Local Abbreviation persistArtifacts := (Persist.persistArtifacts platform env artifacts).
Local Abbreviation dest_file := (Persist.dest_file platform).
Local Abbreviation contractDataPath := (Persist.contractDataPath platform artifacts).
Local Abbreviation base_name f := (Tenderly.contract_name_of (sourceName f)).

Lemma matched_pairs_nil resolvedFiles contracts :
  (∀ c f, Single c ∈ contracts → f ∈ resolvedFiles → name c ≠ base_name f) →
  Persist.matched_pairs resolvedFiles contracts = [].
Proof.
  intros Hno. apply elem_of_nil_inv.
  intros [f c] (Hf & Hc & Hname)%elem_of_matched_pairs. by apply (Hno c f).
Qed.

(** X1.  [persistArtifacts] does not flatten its arguments: when every
    argument is an array of contracts, no array is taken for a contract of
    any name, so the call returns normally and reads and writes nothing. *)
Theorem persistArtifacts_ignores_arrays (arrays : list (list ContractByName))
    (files : Files) :
  persistArtifacts (Array <$> arrays) files = (Returned tt, files).
Proof.
  unfold Persist.persistArtifacts. rewrite persist_files_pairs.
  rewrite matched_pairs_nil; [done|].
  intros c f (cs & [=] & _)%list_elem_of_fmap.
Qed.

(** X2.  When no argument is a contract whose name is the base name of a
    resolved file (no arguments or an empty graph included), the call returns
    normally and the files are as before: nothing is read or written, and a
    missing artifact goes unnoticed. *)
Theorem persistArtifacts_without_match contracts (files : Files) :
  (∀ c f, Single c ∈ contracts → f ∈ dependency_graph env → name c ≠ base_name f) →
  persistArtifacts contracts files = (Returned tt, files).
Proof.
  intros Hno. unfold Persist.persistArtifacts. rewrite persist_files_pairs.
  by rewrite matched_pairs_nil.
Qed.

(** X3.  Whether the call returns or throws, the only paths whose content
    can differ afterwards are the destinations
    [deployments<sep>localhost_5777<sep><name>.json] of the contracts given
    whose name is the base name of a resolved file; and no file that existed
    is gone. *)
Theorem persistArtifacts_writes_only_destinations contracts (files : Files) :
  let files' := snd (persistArtifacts contracts files) in
  (∀ p,
     (∀ c f, Single c ∈ contracts → f ∈ dependency_graph env →
             name c = base_name f → p ≠ dest_file (name c)) →
     files' !! p = files !! p) ∧
  (∀ p, is_Some (files !! p) → is_Some (files' !! p)).
Proof.
  cbv zeta. unfold Persist.persistArtifacts. rewrite persist_files_pairs.
  destruct (persist_pairs_frame platform env artifacts
              (Persist.matched_pairs (dependency_graph env) contracts) files)
    as [Hframe Hkeep].
  split; [|exact Hkeep].
  intros p Hp. apply Hframe.
  intros f c (Hf & Hc & Hname)%elem_of_matched_pairs. rewrite <- Hname.
  by apply (Hp c f).
Qed.

(** X4.  A missing artifact file is fatal to the call: if the compiled
    artifact of some resolved file that a given contract names is not on
    disk (and its path is not one of the destinations), the call throws
    instead of returning. *)
Theorem persistArtifacts_missing_artifact_throws contracts (files : Files) f c :
  f ∈ dependency_graph env →
  Single c ∈ contracts →
  name c = base_name f →
  files !! contractDataPath f = None →
  (∀ n, contractDataPath f ≠ dest_file n) →
  ∃ e, fst (persistArtifacts contracts files) = Thrown e.
Proof.
  intros Hf Hc Hname Hnone Hdest.
  unfold Persist.persistArtifacts. rewrite persist_files_pairs.
  apply (persist_pairs_missing platform env artifacts _ files f c); [|done|auto].
  by apply elem_of_matched_pairs.
Qed.

(** X5.  When the call returns normally, the destination of a name holds
    the artifact of the pair visited last for that name (the last resolved
    file of that base name, with the last contract given under the name):
    its address is that contract's address, so of two contracts given under
    one name the later one is persisted. *)
Theorem persistArtifacts_last_wins contracts (files files' : Files) n f c :
  persistArtifacts contracts files = (Returned tt, files') →
  Persist.last_pair_named n
    (Persist.matched_pairs (dependency_graph env) contracts) = Some (f, c) →
  ∃ artifact,
    files' !! dest_file n = Some (JSON_stringify_artifact platform artifact) ∧
    artifact_address artifact = address c ∧
    artifact_metadata artifact
    = JSON_stringify_metadata platform (Persist.artifact_sources env f).
Proof.
  unfold Persist.persistArtifacts. rewrite persist_files_pairs.
  apply persist_pairs_last_wins.
Qed.
End PersistArtifactsProperties.

(** ** Contract names derived from source paths *)

Lemma split_nonempty sep s : JS.split sep s ≠ [].
Proof.
  destruct s as [|a s]; simpl; [done|].
  destruct (Ascii.eqb a sep); [done|]. by destruct (JS.split sep s).
Qed.

Lemma split_segment_chars sep s : ∀ seg c,
  seg ∈ JS.split sep s → c ∈ list_ascii_of_string seg →
  c ≠ sep ∧ c ∈ list_ascii_of_string s.
Proof.
  induction s as [|a s IH]; intros seg c Hseg Hc; simpl in *.
  { apply list_elem_of_singleton in Hseg as ->. by apply elem_of_nil in Hc. }
  destruct (Ascii.eqb a sep) eqn:E.
  - apply elem_of_cons in Hseg as [->|Hseg]; [by apply elem_of_nil in Hc|].
    destruct (IH seg c Hseg Hc). split; [done|by right].
  - destruct (JS.split sep s) as [|hd tl] eqn:Hsplit; [by destruct (split_nonempty sep s)|].
    apply elem_of_cons in Hseg as [->|Hseg].
    + simpl in Hc. apply elem_of_cons in Hc as [->|Hc].
      * split; [|left]. intros ->. by rewrite Ascii.eqb_refl in E.
      * destruct (IH hd c ltac:(left) Hc). split; [done|by right].
    + destruct (IH seg c ltac:(by right) Hc). split; [done|by right].
Qed.

Lemma last_segment_elem xs : xs ≠ [] → JS.last_segment xs ∈ xs.
Proof.
  unfold JS.last_segment. induction xs as [|x xs IH]; [done|]. intros _.
  destruct xs as [|y xs]; [left|]. right. by apply IH.
Qed.

Lemma first_segment_elem xs : xs ≠ [] → JS.first_segment xs ∈ xs.
Proof. destruct xs; [done|]. intros _. left. Qed.

Lemma split_without_sep sep s :
  sep ∉ list_ascii_of_string s → JS.split sep s = [s].
Proof.
  induction s as [|a s IH]; [done|]. simpl. intros Hno.
  destruct (Ascii.eqb a sep) eqn:E.
  - apply Ascii.eqb_eq in E. subst. exfalso. apply Hno. left.
  - rewrite IH; [done|]. intros ?. apply Hno. by right.
Qed.

Lemma split_append sep a b :
  JS.split sep (String.append a (String sep b)) = JS.split sep a ++ JS.split sep b.
Proof.
  induction a as [|x a IH].
  - change (String.append "" (String sep b)) with (String sep b). simpl.
    by rewrite Ascii.eqb_refl.
  - rewrite append_cons. simpl. rewrite IH.
    destruct (Ascii.eqb x sep); [done|].
    destruct (JS.split sep a) as [|hd tl] eqn:Hsplit; [by destruct (split_nonempty sep a)|].
    done.
Qed.

(** X6.  The name derived from a source path never holds a [/] or a [.]
    (and holds only characters of the path), so a contract requested under a
    name with a [/] or a [.] in it matches no source path at all. *)
Theorem contract_name_has_no_separator (sourcePath : string) :
  (∀ c, c ∈ list_ascii_of_string (Tenderly.contract_name_of sourcePath) →
        c ≠ "/"%char ∧ c ≠ "."%char ∧ c ∈ list_ascii_of_string sourcePath) ∧
  (∀ requestedName,
     "/"%char ∈ list_ascii_of_string requestedName ∨
       "."%char ∈ list_ascii_of_string requestedName →
     String.eqb requestedName (Tenderly.contract_name_of sourcePath) = false).
Proof.
  assert (Hchars : ∀ c,
    c ∈ list_ascii_of_string (Tenderly.contract_name_of sourcePath) →
    c ≠ "/"%char ∧ c ≠ "."%char ∧ c ∈ list_ascii_of_string sourcePath).
  { intros c Hc. unfold Tenderly.contract_name_of in Hc.
    destruct (split_segment_chars "." _ _ c
                (first_segment_elem _ (split_nonempty _ _)) Hc) as [Hdot Hlast].
    destruct (split_segment_chars "/" _ _ c
                (last_segment_elem _ (split_nonempty _ _)) Hlast) as [Hslash Hpath].
    done. }
  split; [exact Hchars|].
  intros requestedName Hsep. apply String.eqb_neq. intros ->.
  destruct Hsep as [H|H]; apply Hchars in H; tauto.
Qed.

(** X7.  For a path [dir/base.ext], where [base] holds no [/] and no [.]
    and [ext] no [/], the derived name is [base], whatever the directory
    part is; likewise without a directory part. *)
Theorem contract_name_of_file_path (dir base ext : string) :
  "/"%char ∉ list_ascii_of_string base →
  "."%char ∉ list_ascii_of_string base →
  "/"%char ∉ list_ascii_of_string ext →
  Tenderly.contract_name_of
    (String.append dir (String "/" (String.append base (String "." ext)))) = base ∧
  Tenderly.contract_name_of (String.append base (String "." ext)) = base.
Proof.
  intros Hslash Hdot Hext.
  assert (Hfile : "/"%char ∉
            list_ascii_of_string (String.append base (String "." ext))).
  { rewrite list_ascii_of_append. simpl.
    intros [?|[[=]|?]%elem_of_cons]%elem_of_app; done. }
  assert (Hname : JS.first_segment
            (JS.split "." (String.append base (String "." ext))) = base).
  { rewrite split_append, (split_without_sep "." base Hdot). done. }
  unfold Tenderly.contract_name_of. split.
  - rewrite split_append, (split_without_sep "/" _ Hfile).
    unfold JS.last_segment. rewrite List.last_last. exact Hname.
  - rewrite (split_without_sep "/" _ Hfile). exact Hname.
Qed.

(** ** More on [filterContracts], [verify] and [push] *)

Lemma fmap_alter_same {A B} (g : A → B) (f : A → A) (l : list A) i :
  (∀ x, g (f x) = g x) → g <$> alter f i l = g <$> l.
Proof.
  intros Hgf. revert i. induction l as [|x l IH]; intros [|i]; simpl; try done.
  - by rewrite Hgf.
  - f_equal. apply IH.
Qed.

Lemma erase_contractToPush version (obj : list (string * string)) :
  Tenderly.set_networks [] <$> map (Tenderly.contractToPush version) obj
  = map (Tenderly.contractToPush version) obj.
Proof.
  induction obj as [|[k v] rest IH]; [done|]. simpl. f_equal. exact IH.
Qed.

Lemma Forall_alter_name n f (l : list TenderlyContract) i :
  (∀ rc, contractName (f rc) = contractName rc) →
  Forall (fun rc => contractName rc ≠ n) l →
  Forall (fun rc => contractName rc ≠ n) (alter f i l).
Proof.
  intros Hf Hl. revert i. induction Hl as [|x l Hx Hl IH]; intros [|i]; simpl.
  - constructor.
  - constructor.
  - constructor; [by rewrite Hf|done].
  - constructor; [done|apply IH].
Qed.

Lemma findIndex_no_name n (l : list TenderlyContract) :
  Forall (fun rc => contractName rc ≠ n) l → JS.findIndex (name_is n) l = None.
Proof.
  induction 1 as [|x l Hx Hl IH]; [done|]. simpl. unfold name_is at 1.
  destruct (String.eqb (contractName x) n) eqn:E.
  - by apply String.eqb_eq in E.
  - by rewrite IH.
Qed.

Section MoreAttach.
Context (PluginName : string) (NetworkMap : gmap string string)
        (toLowerCase : string -> string)
        (cliNetwork : option string).

Lemma attach_step_erase rcs c :
  Tenderly.set_networks [] <$> attach_step NetworkMap toLowerCase cliNetwork rcs c
  = Tenderly.set_networks [] <$> rcs.
Proof.
  unfold attach_step. destruct (Tenderly.resolve_network cliNetwork c); [|done].
  destruct (JS.findIndex _ rcs); [|done]. by apply fmap_alter_same.
Qed.

Lemma attach_all_erase flatContracts : ∀ rcs,
  Tenderly.set_networks [] <$> attach_all NetworkMap toLowerCase cliNetwork flatContracts rcs
  = Tenderly.set_networks [] <$> rcs.
Proof.
  induction flatContracts as [|c rest IH]; intros rcs; [done|].
  rewrite attach_all_cons, IH. apply attach_step_erase.
Qed.

(** Every entry after the loop is an entry as it was or one with the pair of
    a requested contract of its name. *)
Lemma attach_all_entries flatContracts : ∀ rcs rc',
  rc' ∈ attach_all NetworkMap toLowerCase cliNetwork flatContracts rcs →
  rc' ∈ rcs ∨
  ∃ rc c n,
    rc ∈ rcs ∧ c ∈ flatContracts ∧ name c = contractName rc ∧
    Tenderly.resolve_network cliNetwork c = Some n ∧
    rc' = Tenderly.set_networks
            (Tenderly.networks_entry NetworkMap toLowerCase n (address c)) rc.
Proof.
  induction flatContracts as [|c rest IH]; intros rcs rc' Hin; [by left|].
  rewrite attach_all_cons in Hin.
  assert (Hstep : ∀ x, x ∈ attach_step NetworkMap toLowerCase cliNetwork rcs c →
    x ∈ rcs ∨
    ∃ rc n, rc ∈ rcs ∧ name c = contractName rc ∧
      Tenderly.resolve_network cliNetwork c = Some n ∧
      x = Tenderly.set_networks
            (Tenderly.networks_entry NetworkMap toLowerCase n (address c)) rc).
  { intros x Hx. unfold attach_step in Hx.
    destruct (Tenderly.resolve_network cliNetwork c) as [n|] eqn:Hn; [|by left].
    destruct (JS.findIndex (name_is (name c)) rcs) as [i|] eqn:Hi; [|by left].
    destruct (findIndex_lookup _ _ _ Hi) as (rc & Hrc & Hname).
    unfold name_is in Hname. apply String.eqb_eq in Hname.
    apply list_elem_of_lookup_1 in Hx as [j Hj].
    destruct (decide (i = j)) as [->|Hne].
    - rewrite list_lookup_alter_eq, Hrc in Hj. injection Hj as <-.
      right. exists rc, n. split_and!; [by eapply list_elem_of_lookup_2|done..].
    - rewrite list_lookup_alter_ne in Hj by done.
      left. by eapply list_elem_of_lookup_2. }
  destruct (IH _ _ Hin) as [Hrc'|(rc1 & c1 & n1 & Hrc1 & Hc1 & Hname1 & Hn1 & ->)].
  - destruct (Hstep _ Hrc') as [?|(rc & n & ? & ? & ? & ->)]; [by left|right].
    exists rc, c, n. split_and!; [done|left|done..].
  - right. destruct (Hstep _ Hrc1) as [?|(rc & n & ? & ? & ? & ->)].
    + exists rc1, c1, n1. split_and!; [done|by right|done..].
    + exists rc, c1, n1. split_and!; [done|by right|done..].
Qed.

Lemma attach_networks_skip l1 : ∀ c l2 rcs t,
  is_Some (Tenderly.resolve_network cliNetwork c) →
  Forall (fun rc => contractName rc ≠ name c) rcs →
  Tenderly.attach_networks PluginName NetworkMap toLowerCase cliNetwork (l1 ++ c :: l2) rcs t
  = Tenderly.attach_networks PluginName NetworkMap toLowerCase cliNetwork (l1 ++ l2) rcs t.
Proof.
  induction l1 as [|d l1 IH]; intros c l2 rcs t [n Hn] Hnames; simpl.
  - rewrite Hn. fold (name_is (name c)). by rewrite findIndex_no_name.
  - destruct (Tenderly.resolve_network cliNetwork d); [|done].
    destruct (JS.findIndex _ rcs) as [i|].
    + apply IH; [by eexists|by apply Forall_alter_name].
    + apply IH; [by eexists|done].
Qed.
End MoreAttach.

Lemma collect_for_file_skip data f c l1 : ∀ l2 metadata,
  name c ≠ Tenderly.contract_name_of (sourceName f) →
  Tenderly.collect_for_file data f (l1 ++ c :: l2) metadata
  = Tenderly.collect_for_file data f (l1 ++ l2) metadata.
Proof.
  induction l1 as [|d l1 IH]; intros l2 metadata Hname; simpl.
  - apply String.eqb_neq in Hname. by rewrite Hname.
  - destruct (negb _); by apply IH.
Qed.

Lemma collect_files_skip data c l1 l2 files : ∀ metadata,
  (∀ f, f ∈ files → name c ≠ Tenderly.contract_name_of (sourceName f)) →
  fold_left (fun acc f => Tenderly.collect_for_file data f (l1 ++ c :: l2) acc)
    files metadata
  = fold_left (fun acc f => Tenderly.collect_for_file data f (l1 ++ l2) acc)
      files metadata.
Proof.
  induction files as [|f files IH]; intros metadata Hno; [done|].
  simpl. rewrite collect_for_file_skip by (apply Hno; left).
  apply IH. intros g Hg. apply Hno. by right.
Qed.

Lemma getContracts_skip env c l1 l2 :
  (∀ f, f ∈ dependency_graph env →
        name c ≠ Tenderly.contract_name_of (sourceName f)) →
  Tenderly.getContracts env (l1 ++ c :: l2) = Tenderly.getContracts env (l1 ++ l2).
Proof.
  intros Hno. unfold Tenderly.getContracts, Tenderly.collect_sources.
  by rewrite collect_files_skip.
Qed.

Section MoreFilterContracts.
Context (PluginName : string) (NetworkMap : gmap string string)
        (toLowerCase : string -> string).

Local Abbreviation filterContracts := (Tenderly.filterContracts PluginName NetworkMap toLowerCase).
Local Abbreviation verify := (Tenderly.verify PluginName NetworkMap toLowerCase).
Local Abbreviation push := (Tenderly.push PluginName NetworkMap toLowerCase).

(** X8.  A request that [filterContracts] returns differs from what
    [getContractData] assembled in the [networks] of its entries only: the
    entries, their order, names, sources, paths and compilers and the
    configuration are the same, and nothing was logged. *)
Theorem filterContracts_changes_only_networks env flatContracts t req t' :
  filterContracts env flatContracts t = (Returned (Some req), t') →
  t' = t ∧
  config req = config (Tenderly.getContractData env flatContracts) ∧
  Tenderly.set_networks [] <$> contracts req
  = contracts (Tenderly.getContractData env flatContracts).
Proof.
  intros Hreq.
  destruct (resolved_all_or_not (hardhatArguments_network env) flatContracts)
    as [Hall|(c & Hc & Hnone)].
  2:{ rewrite (filterContracts_unresolved _ _ _ _ _ _ c Hc Hnone) in Hreq. done. }
  rewrite (filterContracts_resolved _ _ _ _ _ _ Hall) in Hreq.
  injection Hreq as <- <-. split_and!; [done|done|]. simpl.
  rewrite attach_all_erase. apply erase_contractToPush.
Qed.

(** X9.  A network given on the command line that is neither empty nor the
    sentinel [hardhat] overrides every contract: the call never fails for
    want of a network, logs nothing, and every pair it attaches is keyed by
    the command-line network, whatever network the contracts declare. *)
Theorem cli_network_overrides_contracts env flatContracts t cli :
  hardhatArguments_network env = Some cli →
  cli ≠ "hardhat" → cli ≠ "" →
  ∃ req,
    filterContracts env flatContracts t = (Returned (Some req), t) ∧
    ∀ rc, rc ∈ contracts req →
      networks rc = [] ∨
      ∃ c, c ∈ flatContracts ∧ name c = contractName rc ∧
           networks rc = Tenderly.networks_entry NetworkMap toLowerCase cli (address c).
Proof.
  intros Hcli Hsentinel Hempty.
  assert (Hres : ∀ c, Tenderly.resolve_network (hardhatArguments_network env) c
                      = Some cli).
  { intros c. rewrite Hcli. unfold Tenderly.resolve_network, JS.or_else, JS.truthy.
    rewrite bool_decide_eq_false_2 by (intros [=]; done). simpl.
    apply String.eqb_neq in Hempty. by rewrite Hempty. }
  eexists. split.
  { apply filterContracts_resolved. intros c _. rewrite Hres. by eexists. }
  simpl. intros rc' Hin.
  destruct (attach_all_entries _ _ _ _ _ _ Hin)
    as [Hrc|(rc & c & n & Hrc & Hc & Hname & Hn & ->)].
  - left. destruct (getContracts_spec env flatContracts) as (_ & _ & Hentries).
    by apply Hentries.
  - right. exists c. rewrite Hres in Hn. injection Hn as <-. by split_and!.
Qed.

(** X10.  A requested contract whose name is the base name of no resolved
    file is dropped without a word: provided its own network resolves, the
    result and the log are the same as without it, wherever it stands in the
    list. *)
Theorem unmatched_contract_is_dropped env c l1 l2 t :
  (∀ f, f ∈ dependency_graph env →
        name c ≠ Tenderly.contract_name_of (sourceName f)) →
  is_Some (Tenderly.resolve_network (hardhatArguments_network env) c) →
  filterContracts env (l1 ++ c :: l2) t = filterContracts env (l1 ++ l2) t.
Proof.
  intros Hno Hres. unfold Tenderly.filterContracts, Tenderly.getContractData.
  rewrite (getContracts_skip env c l1 l2 Hno). simpl.
  unfold mbind, Op_bind, bind.
  rewrite (attach_networks_skip PluginName NetworkMap toLowerCase _ l1 c l2); [done|done|].
  apply list.Forall_forall. intros rc Hrc Hname.
  destruct (getContracts_spec env (l1 ++ l2)) as (_ & _ & Hentries).
  destruct (Hentries rc Hrc) as (Hcn & _ & _ & f & Hf & Hpath & _).
  apply (Hno f Hf). by rewrite <- Hname, Hcn, Hpath.
Qed.

(** X11.  When the network of every requested contract resolves, [verify]
    calls the remote endpoint exactly once, with the request
    [filterContracts] returned, whatever the endpoint answers; it logs
    nothing unless the endpoint rejects, and then only the error's
    message. *)
Theorem verify_calls_endpoint_once env service contracts t :
  (∀ c, c ∈ Tenderly.flatten contracts →
        is_Some (Tenderly.resolve_network (hardhatArguments_network env) c)) →
  ∃ req,
    filterContracts env (Tenderly.flatten contracts) t = (Returned (Some req), t) ∧
    verify env service contracts t
    = (Returned tt,
       t ++ VerifyContracts req ::
            match verifyContracts service req with
            | None => []
            | Some err => [ConsoleLog (message err)]
            end).
Proof.
  intros Hall. eexists. split; [by apply filterContracts_resolved|].
  unfold Tenderly.verify; step_op. rewrite (filterContracts_resolved _ _ _ _ _ _ Hall).
  unfold Tenderly.call_verifyContracts; run_call.
  destruct (verifyContracts service _); [|done].
  unfold throw, console_log, emit. by rewrite <- app_assoc.
Qed.

(** X12.  An empty list of contracts is no error: [verify] still calls the
    remote endpoint, once, with a request that holds no contract. *)
Theorem verify_of_nothing_sends_empty_request env service contracts t :
  Tenderly.flatten contracts = [] →
  service_calls (snd (verify env service contracts t))
  = service_calls t ++
    [VerifyContracts {| contracts := [];
                        config := newCompilerConfig (env_config env) |}].
Proof.
  intros Hempty.
  assert (Hnone : Tenderly.getContracts env [] = []).
  { unfold Tenderly.getContracts, Tenderly.collect_sources.
    assert (∀ files metadata,
              fold_left (fun acc f => Tenderly.collect_for_file
                                        (dependency_graph env) f [] acc)
                files metadata = metadata) as ->; [|done].
    induction files as [|f files IH]; [done|]. exact IH. }
  unfold Tenderly.verify; step_op. rewrite Hempty.
  rewrite filterContracts_resolved by (by intros c ?%elem_of_nil).
  rewrite Hnone. unfold Tenderly.call_verifyContracts; run_call.
  unfold service_calls. simpl.
  destruct (verifyContracts service _); simpl;
    unfold throw, console_log, emit; simpl;
    rewrite ?List.filter_app; simpl; by rewrite ?app_nil_r.
Qed.

(** X13.  With project and username configured, [push] calls the remote
    push endpoint exactly once, with the returned request and those two
    values, when the network of every requested contract resolves, and
    logs only an error the endpoint rejects with; a contract without a
    resolvable network makes it log the network error and [Push failed]
    and call nothing. *)
Theorem push_with_project_and_username env service contracts t
    tenderlyProject tenderlyUsername :
  project (tenderly (env_config env)) = Some tenderlyProject →
  username (tenderly (env_config env)) = Some tenderlyUsername →
  ((∀ c, c ∈ Tenderly.flatten contracts →
         is_Some (Tenderly.resolve_network (hardhatArguments_network env) c)) →
   ∃ req,
     filterContracts env (Tenderly.flatten contracts) t = (Returned (Some req), t) ∧
     push env service contracts t
     = (Returned tt,
        t ++ PushContracts req tenderlyProject tenderlyUsername ::
             match pushContracts service req tenderlyProject tenderlyUsername with
             | None => []
             | Some err => [ConsoleLog (message err)]
             end)) ∧
  (∀ c, c ∈ Tenderly.flatten contracts →
        Tenderly.resolve_network (hardhatArguments_network env) c = None →
        push env service contracts t
        = (Returned tt,
           t ++ [ConsoleLog (Tenderly.network_error PluginName);
                 ConsoleLog "Push failed"])).
Proof.
  intros Hp Hu. split.
  - intros Hall. eexists. split; [by apply filterContracts_resolved|].
    unfold Tenderly.push; step_op.
    rewrite (filterContracts_resolved _ _ _ _ _ _ Hall), Hp, Hu.
    unfold Tenderly.call_pushContracts; run_call.
    destruct (pushContracts service _ _ _); [|done].
    unfold throw, console_log, emit. by rewrite <- app_assoc.
  - intros c Hc Hnone. unfold Tenderly.push; step_op.
    rewrite (filterContracts_unresolved _ _ _ _ _ _ c Hc Hnone), Hp, Hu.
    unfold console_log, emit. by rewrite <- app_assoc.
Qed.
End MoreFilterContracts.

(** ** [persistArtifacts] at sample inputs *)

Example persistArtifacts_writes_artifact :
  snd (Persist.persistArtifacts sample_platform
         (sample_env None (Some "demo") (Some "dev")) "artifacts"
         [Single (Token_at "0xabc" None)] sample_files)
  !! "deployments/localhost_5777/Token.json"
  = Some "0xabc|contracts/Token.sol;contracts/lib/SafeMath.sol|{Token}.bytecode|{Token}.deployedBytecode|{Token}.abi".
Proof. vm_compute. reflexivity. Qed.

Lemma persistArtifacts_without_match_witness :
  Persist.persistArtifacts sample_platform twin_env "artifacts"
    [Single (Vault_at "0xdef" None)] sample_files
  = (Returned tt, sample_files).
Proof.
  apply (persistArtifacts_without_match sample_platform twin_env "artifacts").
  intros c f Hc Hf. apply list_elem_of_singleton in Hc. injection Hc as ->.
  apply elem_of_cons in Hf as [->|Hf]; [by vm_compute|].
  apply list_elem_of_singleton in Hf as ->. by vm_compute.
Defined.

Lemma persistArtifacts_missing_artifact_throws_witness :
  ∃ e,
    fst (Persist.persistArtifacts sample_platform
           (sample_env None (Some "demo") (Some "dev")) "artifacts"
           [Single (Token_at "0xabc" None); Single (Vault_at "0xdef" None)]
           sample_files)
    = Thrown e.
Proof.
  apply (persistArtifacts_missing_artifact_throws sample_platform
           (sample_env None (Some "demo") (Some "dev")) "artifacts" _ _
           Vault_sol (Vault_at "0xdef" None)).
  - right. left.
  - right. left.
  - reflexivity.
  - vm_compute. reflexivity.
  - intros n. cbv. discriminate.
Defined.

Lemma persistArtifacts_last_wins_witness :
  ∃ artifact,
    snd (Persist.persistArtifacts sample_platform
           (sample_env None (Some "demo") (Some "dev")) "artifacts"
           [Single (Token_at "0x01" None); Single (Token_at "0x02" None)]
           sample_files)
    !! "deployments/localhost_5777/Token.json"
    = Some (JSON_stringify_artifact sample_platform artifact) ∧
    artifact_address artifact = "0x02".
Proof.
  destruct (persistArtifacts_last_wins sample_platform
              (sample_env None (Some "demo") (Some "dev")) "artifacts"
              [Single (Token_at "0x01" None); Single (Token_at "0x02" None)]
              sample_files
              (snd (Persist.persistArtifacts sample_platform
                      (sample_env None (Some "demo") (Some "dev")) "artifacts"
                      [Single (Token_at "0x01" None); Single (Token_at "0x02" None)]
                      sample_files))
              "Token" Token_sol (Token_at "0x02" None))
    as (artifact & Hfile & Haddr & _).
  - vm_compute. reflexivity.
  - vm_compute. reflexivity.
  - exists artifact. split; [exact Hfile|exact Haddr].
Defined.

Lemma contract_name_of_file_path_witness :
  Tenderly.contract_name_of "node_modules/@openzeppelin/contracts/token/ERC20/ERC20.sol"
  = "ERC20".
Proof.
  refine (proj1 (contract_name_of_file_path
                   "node_modules/@openzeppelin/contracts/token/ERC20"
                   "ERC20" "sol" _ _ _));
    apply (bool_decide_unpack _); vm_compute; reflexivity.
Defined.

(** ** [filterContracts], [verify] and [push] at more sample inputs *)

Lemma filterContracts_changes_only_networks_witness :
  Tenderly.set_networks [] <$> [Token_entry [("3", "0xabc")]; SafeMath_entry]
  = Tenderly.getContracts (sample_env (Some "ropsten") (Some "demo") (Some "dev"))
      [Token_at "0xabc" None].
Proof.
  refine (proj2 (proj2
    (filterContracts_changes_only_networks "hardhat-tenderly" sample_NetworkMap JS.toLowerCase_ascii
       (sample_env (Some "ropsten") (Some "demo") (Some "dev"))
       [Token_at "0xabc" None] []
       {| contracts := [Token_entry [("3", "0xabc")]; SafeMath_entry];
          config := newCompilerConfig (sample_config (Some "demo") (Some "dev")) |}
       [] _))).
  vm_compute. reflexivity.
Defined.

Lemma cli_network_overrides_contracts_witness :
  ∃ req,
    Tenderly.filterContracts "hardhat-tenderly" sample_NetworkMap JS.toLowerCase_ascii
      (sample_env (Some "ropsten") (Some "demo") (Some "dev"))
      [Token_at "0xabc" (Some "mainnet"); Vault_at "0xdef" None] []
    = (Returned (Some req), []) ∧
    ∀ rc, rc ∈ contracts req →
      networks rc = [] ∨
      ∃ c, c ∈ [Token_at "0xabc" (Some "mainnet"); Vault_at "0xdef" None] ∧
           name c = contractName rc ∧
           networks rc = Tenderly.networks_entry sample_NetworkMap JS.toLowerCase_ascii "ropsten" (address c).
Proof.
  apply (cli_network_overrides_contracts "hardhat-tenderly" sample_NetworkMap JS.toLowerCase_ascii
           (sample_env (Some "ropsten") (Some "demo") (Some "dev"))
           [Token_at "0xabc" (Some "mainnet"); Vault_at "0xdef" None] [] "ropsten").
  - reflexivity.
  - discriminate.
  - discriminate.
Defined.

Lemma unmatched_contract_is_dropped_witness :
  Tenderly.filterContracts "hardhat-tenderly" sample_NetworkMap JS.toLowerCase_ascii
    (sample_env None (Some "demo") (Some "dev"))
    [Token_at "0xabc" (Some "ropsten");
     {| name := "Ghost"; address := "0x999"; network := Some "mainnet" |}] []
  = Tenderly.filterContracts "hardhat-tenderly" sample_NetworkMap JS.toLowerCase_ascii
      (sample_env None (Some "demo") (Some "dev"))
      [Token_at "0xabc" (Some "ropsten")] [].
Proof.
  apply (unmatched_contract_is_dropped "hardhat-tenderly" sample_NetworkMap JS.toLowerCase_ascii
           (sample_env None (Some "demo") (Some "dev"))
           {| name := "Ghost"; address := "0x999"; network := Some "mainnet" |}
           [Token_at "0xabc" (Some "ropsten")] [] []).
  - intros f Hf. simpl in Hf.
    apply elem_of_cons in Hf as [->|Hf]; [by vm_compute|].
    apply elem_of_cons in Hf as [->|Hf]; [by vm_compute|].
    apply list_elem_of_singleton in Hf as ->. by vm_compute.
  - vm_compute. eauto.
Defined.

Lemma verify_calls_endpoint_once_witness :
  service_calls
    (snd (Tenderly.verify "hardhat-tenderly" sample_NetworkMap JS.toLowerCase_ascii
            (sample_env (Some "ropsten") (Some "demo") (Some "dev")) failing_service
            [[Token_at "0xabc" None]] []))
  = [VerifyContracts
       {| contracts := [Token_entry [("3", "0xabc")]; SafeMath_entry];
          config := newCompilerConfig (sample_config (Some "demo") (Some "dev")) |}].
Proof.
  destruct (verify_calls_endpoint_once "hardhat-tenderly" sample_NetworkMap JS.toLowerCase_ascii
              (sample_env (Some "ropsten") (Some "demo") (Some "dev")) failing_service
              [[Token_at "0xabc" None]] []) as (req & Hreq & Hverify).
  - intros c Hc. vm_compute in Hc. apply list_elem_of_singleton in Hc as ->.
    vm_compute. eauto.
  - rewrite Hverify. vm_compute in Hreq. injection Hreq as <-.
    vm_compute. reflexivity.
Defined.

Lemma verify_of_nothing_sends_empty_request_witness :
  service_calls
    (snd (Tenderly.verify "hardhat-tenderly" sample_NetworkMap JS.toLowerCase_ascii
            (sample_env None (Some "demo") (Some "dev")) quiet_service [[]; []] []))
  = [VerifyContracts
       {| contracts := [];
          config := newCompilerConfig (sample_config (Some "demo") (Some "dev")) |}].
Proof.
  apply (verify_of_nothing_sends_empty_request "hardhat-tenderly" sample_NetworkMap JS.toLowerCase_ascii
           (sample_env None (Some "demo") (Some "dev")) quiet_service [[]; []] []).
  reflexivity.
Defined.

Lemma push_with_project_and_username_witness :
  Tenderly.push "hardhat-tenderly" sample_NetworkMap JS.toLowerCase_ascii
    (sample_env None (Some "demo") (Some "dev")) quiet_service
    [[Vault_at "0xdef" None]] []
  = (Returned tt,
     [ConsoleLog (Tenderly.network_error "hardhat-tenderly"); ConsoleLog "Push failed"]).
Proof.
  refine (proj2
    (push_with_project_and_username "hardhat-tenderly" sample_NetworkMap JS.toLowerCase_ascii
       (sample_env None (Some "demo") (Some "dev")) quiet_service
       [[Vault_at "0xdef" None]] [] "demo" "dev" _ _)
    (Vault_at "0xdef" None) _ _).
  - reflexivity.
  - reflexivity.
  - vm_compute. left.
  - reflexivity.
Defined.

(** ** The request assembler on the object store *)

Ltac mem_step := unfold mbind, MemOp_bind, mem_bind.

Lemma keeps_refl kept m : keeps kept m m.
Proof. by split. Qed.

Lemma keeps_trans kept m1 m2 m3 :
  keeps kept m1 m2 → keeps kept m2 m3 → keeps kept m1 m3.
Proof.
  intros [H12 D12] [H23 D23]. split.
  - intros ref Href. rewrite H23, H12; done.
  - by transitivity (dom (heap m2)).
Qed.

Lemma keeps_insert kept (h : gmap positive StoredObject) t ref o :
  ref ∉ kept →
  keeps kept {| heap := h; console := t |}
    {| heap := <[ref := o]> h; console := t |}.
Proof.
  intros Href. split; simpl.
  - intros r Hr. apply lookup_insert_ne. intros ->. done.
  - rewrite dom_insert_L. set_solver.
Qed.

Lemma fresh_not_kept kept (h : gmap positive StoredObject) :
  kept ⊆ dom h → fresh (dom h) ∉ kept.
Proof. intros Hsub Hin. apply (is_fresh (dom h)). by apply Hsub. Qed.

Lemma fresh_lookup (h : gmap positive StoredObject) ref o :
  h !! ref = Some o → ref ≠ fresh (dom h).
Proof.
  intros Href ->. apply (is_fresh (dom h)). apply elem_of_dom. by eexists.
Qed.

Section StoreCollect.
Context (data : DependencyGraph) (kept : gset positive) (metadataRef : positive).

Lemma store_collect_for_file f flatContracts : ∀ m metadata,
  heap m !! metadataRef = Some (MetadataObject metadata) →
  metadataRef ∉ kept → kept ⊆ dom (heap m) →
  ∃ m',
    Store.collect_for_file data f flatContracts metadataRef m = Some (tt, m') ∧
    keeps kept m m' ∧ console m' = console m ∧
    heap m' !! metadataRef
    = Some (MetadataObject (Tenderly.collect_for_file data f flatContracts metadata)).
Proof.
  induction flatContracts as [|c rest IH]; intros m metadata Hmeta Hnew Hsub; simpl.
  { exists m. split_and!; [done|apply keeps_refl|done|done]. }
  destruct (negb _); [by apply IH|].
  mem_step. unfold Store.assign_source. mem_step.
  unfold Store.read_metadata at 1. rewrite Hmeta. simpl.
  set (metadata1 := {| compiler := compiler metadata;
                       sources := JS.set (sourceName f) (rawContent f)
                                    (sources metadata) |}).
  set (h1 := <[metadataRef := MetadataObject metadata1]> (heap m)).
  set (visitedRef := fresh (dom h1)).
  assert (Hv : visitedRef ≠ metadataRef).
  { intros Heq. apply (is_fresh (dom h1)). fold visitedRef. rewrite Heq.
    unfold h1. rewrite dom_insert_L. set_solver. }
  unfold Store.resolveDependencies. mem_step.
  unfold Store.read_metadata at 1. simpl. fold h1 visitedRef.
  rewrite lookup_insert_ne by done. unfold h1 at 1. rewrite lookup_insert_eq.
  unfold Store.read_visited. simpl. rewrite lookup_insert_eq. simpl.
  set (w := resolveDependencies data (sourceName f) metadata1 ∅).
  match goal with
  | |- ∃ m', Store.collect_for_file _ _ _ _ ?x = _ ∧ _ => set (m3 := x)
  end.
  destruct (IH m3 (walk_metadata w)) as (m' & Hrun & Hkeep & Hcons & Hfinal).
  - unfold m3. simpl. rewrite lookup_insert_ne by done. apply lookup_insert_eq.
  - done.
  - unfold m3, h1. simpl. rewrite !dom_insert_L.
    repeat apply union_subseteq_r'. exact Hsub.
  - exists m'. split_and!; [done| |by rewrite Hcons|done].
    eapply keeps_trans; [|exact Hkeep].
    split.
    + intros ref Href. unfold m3, h1. simpl.
      assert (ref ≠ visitedRef).
      { intros ->. apply (is_fresh (dom h1)). fold visitedRef.
        unfold h1. rewrite dom_insert_L. apply Hsub in Href. set_solver. }
      assert (ref ≠ metadataRef) by (intros ->; done).
      by rewrite !lookup_insert_ne.
    + unfold m3, h1. simpl. rewrite !dom_insert_L. set_solver.
Qed.

Lemma store_collect_sources flatContracts resolvedFiles : ∀ m metadata,
  heap m !! metadataRef = Some (MetadataObject metadata) →
  metadataRef ∉ kept → kept ⊆ dom (heap m) →
  ∃ m',
    Store.collect_sources data resolvedFiles flatContracts metadataRef m
    = Some (tt, m') ∧
    keeps kept m m' ∧ console m' = console m ∧
    heap m' !! metadataRef
    = Some (MetadataObject
              (fold_left
                 (fun acc f => Tenderly.collect_for_file data f flatContracts acc)
                 resolvedFiles metadata)).
Proof.
  induction resolvedFiles as [|f rest IH]; intros m metadata Hmeta Hnew Hsub; simpl.
  { exists m. split_and!; [done|apply keeps_refl|done|done]. }
  mem_step.
  destruct (store_collect_for_file f flatContracts m metadata Hmeta Hnew Hsub)
    as (m1 & -> & Hkeep1 & Hcons1 & Hmeta1).
  destruct (IH m1 _ Hmeta1 Hnew) as (m' & Hrun & Hkeep & Hcons & Hfinal).
  { destruct Hkeep1 as [_ Hdom]. set_solver. }
  exists m'. split_and!; [done| |by rewrite Hcons|done].
  by eapply keeps_trans.
Qed.
End StoreCollect.

Lemma contracts_at_holds (h : gmap positive StoredObject) refs rcs :
  Forall2 (fun ref rc => h !! ref = Some (ContractObject rc)) refs rcs →
  Store.contracts_at h refs = Some rcs.
Proof.
  intros Hall. unfold Store.contracts_at. apply mapM_Some.
  eapply Forall2_impl; [exact Hall|]. intros ref rc Href. simpl in Href.
  unfold Store.contract_at. by rewrite Href.
Qed.

Lemma array_holds_kept kept (m m' : Memory) la refs rcs :
  array_holds kept (heap m) la refs rcs →
  (∀ ref o, heap m !! ref = Some o → (ref = la ∨ ref ∈ refs) →
            heap m' !! ref = Some o) →
  array_holds kept (heap m') la refs rcs.
Proof.
  intros [Harr Hcs Hnd Hapart Hla Hnew] Hsame. split; try done.
  - apply (Hsame _ _ Harr). by left.
  - apply Forall2_same_length_lookup. apply Forall2_same_length_lookup in Hcs as [Hlen Hcs].
    split; [done|]. intros i ref rc Href Hrc.
    apply (Hsame _ _ (Hcs i ref rc Href Hrc)). right.
    by eapply list_elem_of_lookup_2.
Qed.

Lemma holds_ref_in_dom kept (h : gmap positive StoredObject) la refs rcs ref :
  array_holds kept h la refs rcs → ref ∈ refs → ref ∈ dom h.
Proof.
  intros [_ Hcs _ _ _ _] [i Hi]%list_elem_of_lookup_1.
  destruct (Forall2_lookup_l _ _ _ _ _ Hcs Hi) as (rc & _ & Href).
  apply elem_of_dom. by eexists.
Qed.

Section StoreAssemble.
Context (kept : gset positive).

Lemma store_push_entries version entries la : ∀ m refs rcs,
  array_holds kept (heap m) la refs rcs → kept ⊆ dom (heap m) →
  ∃ m' refs',
    Store.push_entries version entries la m = Some (tt, m') ∧
    keeps kept m m' ∧ console m' = console m ∧
    array_holds kept (heap m') la refs'
      (rcs ++ map (Tenderly.contractToPush version) entries).
Proof.
  induction entries as [|entry rest IH]; intros m refs rcs Hholds Hsub; simpl.
  { exists m, refs. rewrite app_nil_r. split_and!; [done|apply keeps_refl|done|done]. }
  mem_step. unfold Store.alloc, Store.read_array, Store.write. simpl.
  set (ref := fresh (dom (heap m))).
  assert (Hfresh : ref ∉ dom (heap m)) by apply is_fresh.
  assert (Hla : ref ≠ la).
  { intros Heq. apply Hfresh. rewrite Heq. apply elem_of_dom.
    rewrite (holds_array _ _ _ _ _ Hholds). by eexists. }
  assert (Hrefs : ref ∉ refs).
  { intros Hin. apply Hfresh. by eapply holds_ref_in_dom. }
  rewrite lookup_insert_ne by done. rewrite (holds_array _ _ _ _ _ Hholds). simpl.
  set (rc := Tenderly.contractToPush version entry).
  match goal with
  | |- ∃ m' refs', Store.push_entries _ _ _ ?x = _ ∧ _ => set (m1 := x)
  end.
  assert (Hkeep1 : keeps kept m m1).
  { split.
    - intros r Hr. unfold m1. simpl.
      assert (r ≠ la) by (intros ->; by apply (holds_array_new _ _ _ _ _ Hholds)).
      assert (r ≠ ref) by (intros ->; apply Hfresh; by apply Hsub).
      by rewrite !lookup_insert_ne.
    - unfold m1. simpl. rewrite !dom_insert_L. set_solver. }
  destruct (IH m1 (refs ++ [ref]) (rcs ++ [rc])) as (m' & refs' & Hrun & Hkeep & Hcons & Hfinal).
  - destruct Hholds as [Harr Hcs Hnd Hapart Hnewla Hnew]. split.
    + unfold m1. simpl. apply lookup_insert_eq.
    + unfold m1. simpl. apply Forall2_app.
      * apply Forall2_same_length_lookup.
        apply Forall2_same_length_lookup in Hcs as [Hlen Hcs]. split; [done|].
        intros i r c Hr Hc.
        assert (r ∈ refs) by (by eapply list_elem_of_lookup_2).
        assert (r ≠ la) by (intros ->; done).
        assert (r ≠ ref) by (intros ->; done).
        rewrite !lookup_insert_ne by done. by apply (Hcs i).
      * constructor; [|constructor].
        rewrite lookup_insert_ne by done. apply lookup_insert_eq.
    + apply NoDup_app. split_and!; [done| |apply NoDup_singleton].
      intros r Hr ->%list_elem_of_singleton. done.
    + intros [?| ->%list_elem_of_singleton]%elem_of_app; done.
    + done.
    + intros r [?| ->%list_elem_of_singleton]%elem_of_app; [by apply Hnew|].
      intros Hin. apply Hfresh. by apply Hsub.
  - destruct Hkeep1 as [_ Hdom]. set_solver.
  - exists m', refs'. rewrite <- app_assoc in Hfinal. simpl in Hfinal.
    split_and!; [done| |by rewrite Hcons|done].
    by eapply keeps_trans.
Qed.

Lemma store_getContracts env flatContracts m :
  kept ⊆ dom (heap m) →
  ∃ la m' refs,
    Store.getContracts env flatContracts m = Some (la, m') ∧
    keeps kept m m' ∧ console m' = console m ∧
    array_holds kept (heap m') la refs (Tenderly.getContracts env flatContracts).
Proof.
  intros Hsub. unfold Store.getContracts. cbv zeta. mem_step.
  unfold Store.alloc. simpl.
  set (la := fresh (dom (heap m))).
  assert (Hla : la ∉ dom (heap m)) by apply is_fresh.
  set (h1 := <[la := ArrayObject []]> (heap m)).
  set (lm := fresh (dom h1)).
  assert (Hlm : lm ∉ dom h1) by apply is_fresh.
  assert (Hne : lm ≠ la).
  { intros Heq. apply Hlm. rewrite Heq. unfold h1. rewrite dom_insert_L. set_solver. }
  set (metadata0 := {| compiler := solidity_version (env_config env); sources := [] |}).
  set (m2 := {| heap := <[lm := MetadataObject metadata0]> h1; console := console m |}).
  destruct (store_collect_sources (dependency_graph env) (dom h1) lm flatContracts
              (dependency_graph env) m2 metadata0)
    as (m3 & -> & [Hsame3 Hdom3] & Hcons3 & Hmeta3).
  { unfold m2. simpl. apply lookup_insert_eq. }
  { done. }
  { unfold m2. simpl. rewrite dom_insert_L. apply union_subseteq_r. }
  unfold Store.read_metadata. rewrite Hmeta3. simpl.
  fold (Tenderly.collect_sources (dependency_graph env) flatContracts metadata0).
  set (metadata' := Tenderly.collect_sources (dependency_graph env) flatContracts metadata0).
  assert (Hla3 : heap m3 !! la = Some (ArrayObject [])).
  { rewrite Hsame3.
    - unfold m2. simpl. rewrite lookup_insert_ne by done. unfold h1. apply lookup_insert_eq.
    - unfold h1. rewrite dom_insert_L. set_solver. }
  assert (Hsub3 : kept ⊆ dom (heap m3)).
  { unfold m2, h1 in Hdom3. simpl in Hdom3. rewrite !dom_insert_L in Hdom3. set_solver. }
  destruct (store_push_entries (solidity_version (env_config env)) (sources metadata')
              la m3 [] []) as (m' & refs' & -> & Hkeep & Hcons & Hfinal); [|done|].
  { split; [done|constructor|constructor|by intros ?%elem_of_nil| |by intros ? ?%elem_of_nil].
    intros Hin. apply Hla. by apply Hsub. }
  exists la, m', refs'. split_and!; [done| | |exact Hfinal].
  - assert (Hkeep2 : keeps kept m m3).
    { split.
      - intros r Hr. rewrite Hsame3.
        + unfold m2, h1. simpl.
          assert (r ≠ la) by (intros ->; apply Hla; by apply Hsub).
          assert (r ≠ lm).
          { intros ->. apply Hlm. unfold h1. rewrite dom_insert_L.
            apply Hsub in Hr. set_solver. }
          by rewrite !lookup_insert_ne.
        + unfold h1. rewrite dom_insert_L. apply Hsub in Hr. set_solver.
      - unfold m2, h1 in Hdom3. simpl in Hdom3. rewrite !dom_insert_L in Hdom3.
        set_solver. }
    by eapply keeps_trans.
  - rewrite Hcons, Hcons3. done.
Qed.

Lemma store_getContractData env flatContracts m :
  kept ⊆ dom (heap m) →
  ∃ lr la m' refs,
    Store.getContractData env flatContracts m = Some (lr, m') ∧
    keeps kept m m' ∧ console m' = console m ∧
    heap m' !! lr = Some (RequestObject la (newCompilerConfig (env_config env))) ∧
    (lr ∉ kept) ∧ (lr ≠ la) ∧ (lr ∉ refs) ∧
    array_holds kept (heap m') la refs (Tenderly.getContracts env flatContracts).
Proof.
  intros Hsub. unfold Store.getContractData. mem_step.
  destruct (store_getContracts env flatContracts m Hsub)
    as (la & m1 & refs & -> & Hkeep1 & Hcons1 & Hholds).
  unfold Store.alloc. simpl.
  set (lr := fresh (dom (heap m1))).
  assert (Hlr : lr ∉ dom (heap m1)) by apply is_fresh.
  assert (Hsub1 : kept ⊆ dom (heap m1)) by (destruct Hkeep1; set_solver).
  assert (Hne : lr ≠ la).
  { intros Heq. apply Hlr. rewrite Heq. apply elem_of_dom.
    rewrite (holds_array _ _ _ _ _ Hholds). by eexists. }
  assert (Hrefs : lr ∉ refs).
  { intros Hin. apply Hlr. by eapply holds_ref_in_dom. }
  eexists lr, la, _, refs. split_and!; [done| |done| | | | |].
  - eapply keeps_trans; [exact Hkeep1|].
    destruct m1 as [h1 t1]. apply keeps_insert. intros Hin. apply Hlr. by apply Hsub1.
  - simpl. apply lookup_insert_eq.
  - intros Hin. apply Hlr. by apply Hsub1.
  - done.
  - done.
  - destruct Hholds as [Harr Hcs Hnd Hapart Hnewla Hnew]. split; try done; simpl.
    + by rewrite lookup_insert_ne.
    + apply Forall2_same_length_lookup.
      apply Forall2_same_length_lookup in Hcs as [Hlen Hcs]. split; [done|].
      intros i r c Hr Hc. rewrite lookup_insert_ne; [by apply (Hcs i)|].
      intros <-. apply Hrefs. by eapply list_elem_of_lookup_2.
Qed.
End StoreAssemble.

Section StoreAttach.
Context (PluginName : string) (NetworkMap : gmap string string)
        (toLowerCase : string -> string) (kept : gset positive).

(** The loop on the store does to the entries of the array what the loop on
    values does to the list, and logs the same. *)
Lemma store_attach_networks cli lr la config0 refs flatContracts : ∀ m rcs,
  heap m !! lr = Some (RequestObject la config0) →
  lr ∉ kept → lr ≠ la → lr ∉ refs →
  array_holds kept (heap m) la refs rcs →
  ∃ r m',
    Store.attach_networks PluginName NetworkMap toLowerCase cli flatContracts lr m
    = Some (r, m') ∧
    keeps kept m m' ∧
    match Tenderly.attach_networks PluginName NetworkMap toLowerCase cli
            flatContracts rcs (console m) with
    | (Returned (Some rcs'), t') =>
        r = Some lr ∧ console m' = t' ∧
        heap m' !! lr = Some (RequestObject la config0) ∧
        array_holds kept (heap m') la refs rcs'
    | (Returned None, t') => r = None ∧ console m' = t'
    | (Thrown _, _) => False
    end.
Proof.
  induction flatContracts as [|c rest IH]; intros m rcs Hlr Hnew Hne Hrefs Hholds; simpl.
  { exists (Some lr), m. split; [done|]. split; [apply keeps_refl|]. by split_and!. }
  destruct (Tenderly.resolve_network cli c) as [n|].
  2:{ eexists None, _. split; [done|]. split.
      - split; [done|]. simpl. done.
      - unfold mbind, Op_bind, bind, console_log, emit. simpl. done. }
  mem_step. unfold Store.read_contractsRef. rewrite Hlr. simpl.
  unfold Store.read_array. rewrite (holds_array _ _ _ _ _ Hholds). simpl.
  unfold Store.read_contracts.
  rewrite (contracts_at_holds _ _ _ (holds_contracts _ _ _ _ _ Hholds)). simpl.
  destruct (JS.findIndex _ rcs) as [i|] eqn:Hi; [|by apply IH].
  destruct (findIndex_lookup _ _ _ Hi) as (rc & Hrc & _).
  destruct (Forall2_lookup_r _ _ _ _ _ (holds_contracts _ _ _ _ _ Hholds) Hrc)
    as (ref & Href & Hobj).
  rewrite Href, Hrc. mem_step. unfold Store.write. simpl.
  assert (Hin : ref ∈ refs) by (by eapply list_elem_of_lookup_2).
  assert (ref ≠ lr) by (intros ->; done).
  assert (ref ≠ la) by (intros ->; by apply (holds_apart _ _ _ _ _ Hholds)).
  set (rc' := Tenderly.set_networks
                (Tenderly.networks_entry NetworkMap toLowerCase n (address c)) rc).
  match goal with
  | |- ∃ r m', Store.attach_networks _ _ _ _ _ _ ?x = _ ∧ _ => set (m1 := x)
  end.
  assert (Hkeep1 : keeps kept m m1).
  { destruct m as [h t]. apply keeps_insert. by apply (holds_new _ _ _ _ _ Hholds). }
  destruct (IH m1 (alter (Tenderly.set_networks
                            (Tenderly.networks_entry NetworkMap toLowerCase n (address c)))
                     i rcs))
    as (r & m' & Hrun & Hkeep & Hpost); try done.
  - unfold m1. simpl. by rewrite lookup_insert_ne.
  - destruct Hholds as [Harr Hcs Hnd Hapart Hnewla Hnewrefs]. split; try done.
    + unfold m1. simpl. by rewrite lookup_insert_ne.
    + unfold m1. simpl. apply Forall2_same_length_lookup.
      apply Forall2_same_length_lookup in Hcs as [Hlen Hcs].
      split; [by rewrite length_alter|].
      intros j r0 c0 Hr0 Hc0. destruct (decide (i = j)) as [<-|Hij].
      * rewrite list_lookup_alter_eq, Hrc in Hc0. injection Hc0 as <-.
        assert (r0 = ref) as -> by congruence. apply lookup_insert_eq.
      * rewrite list_lookup_alter_ne in Hc0 by done.
        rewrite lookup_insert_ne; [by apply (Hcs j)|].
        intros <-. apply Hij. by eapply NoDup_lookup.
  - exists r, m'. split; [done|]. split; [by eapply keeps_trans|exact Hpost].
Qed.
End StoreAttach.

Lemma lookup_kept (m m' : Memory) ref o :
  keeps (dom (heap m)) m m' → heap m !! ref = Some o → heap m' !! ref = Some o.
Proof.
  intros [Hsame _] Href. rewrite Hsame; [done|]. apply elem_of_dom. by eexists.
Qed.

(** A request read from a store reads the same from any later store that
    kept the objects of the earlier one. *)
Lemma request_at_kept (m m' : Memory) ref req :
  keeps (dom (heap m)) m m' →
  Store.request_at (heap m) ref = Some req →
  Store.request_at (heap m') ref = Some req.
Proof.
  intros Hkeep. unfold Store.request_at.
  destruct (heap m !! ref) as [[| | | |la config0]|] eqn:Href; try done.
  destruct (heap m !! la) as [[| | |refs|]|] eqn:Hla; try done.
  destruct (Store.contracts_at (heap m) refs) as [rcs|] eqn:Hrcs; [|done].
  intros [= <-].
  rewrite (lookup_kept _ _ _ _ Hkeep Href), (lookup_kept _ _ _ _ Hkeep Hla).
  assert (Store.contracts_at (heap m') refs = Some rcs) as ->; [|done].
  unfold Store.contracts_at in *. apply mapM_Some. apply mapM_Some in Hrcs.
  eapply Forall2_impl; [exact Hrcs|]. intros r c. unfold Store.contract_at.
  destruct (heap m !! r) as [o|] eqn:Hr; [|done].
  by rewrite (lookup_kept _ _ _ _ Hkeep Hr).
Qed.

Section StoreFilterContracts.
Context (PluginName : string) (NetworkMap : gmap string string)
        (toLowerCase : string -> string).

Local Abbreviation filterContracts :=
  (Tenderly.filterContracts PluginName NetworkMap toLowerCase).
Local Abbreviation store_filterContracts :=
  (Store.filterContracts PluginName NetworkMap toLowerCase).

(** What [filterContracts] returns does not depend on what was logged
    before. *)
Lemma filterContracts_result_ignores_trace env flatContracts t t' :
  fst (filterContracts env flatContracts t') = fst (filterContracts env flatContracts t).
Proof.
  destruct (resolved_all_or_not (hardhatArguments_network env) flatContracts)
    as [Hall|(c & Hc & Hnone)].
  - by rewrite !filterContracts_resolved.
  - by rewrite !(filterContracts_unresolved _ _ _ _ _ _ c Hc Hnone).
Qed.

(** A call on the store always completes; it leaves every object that was
    there as it was, logs what the method on values logs, and returns a new
    reference that holds the request the method on values returns (or
    [null] where that returns [null]). *)
Lemma store_filterContracts_refines env flatContracts m :
  ∃ r m',
    store_filterContracts env flatContracts m = Some (r, m') ∧
    keeps (dom (heap m)) m m' ∧
    console m' = snd (filterContracts env flatContracts (console m)) ∧
    match r with
    | Some requestRef =>
        (requestRef ∉ dom (heap m)) ∧
        ∃ req,
          fst (filterContracts env flatContracts (console m)) = Returned (Some req) ∧
          Store.request_at (heap m') requestRef = Some req
    | None =>
        fst (filterContracts env flatContracts (console m)) = Returned None
    end.
Proof.
  unfold Store.filterContracts. mem_step.
  destruct (store_getContractData (dom (heap m)) env flatContracts m)
    as (lr & la & m1 & refs & -> & Hkeep1 & Hcons1 & Hlr & Hnew & Hne & Hrefs & Hholds);
    [done|].
  destruct (store_attach_networks PluginName NetworkMap toLowerCase (dom (heap m))
              (hardhatArguments_network env) lr la _ refs flatContracts m1 _
              Hlr Hnew Hne Hrefs Hholds) as (r & m' & -> & Hkeep & Hpost).
  exists r, m'. split; [done|]. split; [by eapply keeps_trans|].
  unfold Tenderly.filterContracts, Tenderly.getContractData. simpl.
  unfold mbind, Op_bind, bind. rewrite Hcons1 in Hpost.
  destruct (Tenderly.attach_networks _ _ _ _ _ _ (console m)) as [[[rcs'|]|e] t'];
    simpl; [| |done].
  - destruct Hpost as (-> & Hcons & Hlr' & Hholds'). split; [done|]. split; [done|].
    eexists. split; [done|]. unfold Store.request_at.
    rewrite Hlr', (holds_array _ _ _ _ _ Hholds').
    by rewrite (contracts_at_holds _ _ _ (holds_contracts _ _ _ _ _ Hholds')).
  - by destruct Hpost as (-> & Hcons).
Qed.

(** C8.  Invoking the request assembler twice in a row, with the same
    contract list, configuration and resolved graph, gives two structurally
    identical requests.  The second call runs on the store the first one
    left, with the first call's metadata, visited-sets, entries and request
    still in it and its lines on the console; it completes, returns a
    reference of its own, and the request read there equals the one the
    first call returned, which itself still reads as before; where the first
    call returns [null], so does the second.  Neither call changes an object
    that was in the store before. *)
Theorem filterContracts_twice_gives_identical_requests env flatContracts m :
  ∃ r1 m1 r2 m2,
    store_filterContracts env flatContracts m = Some (r1, m1) ∧
    store_filterContracts env flatContracts m1 = Some (r2, m2) ∧
    keeps (dom (heap m)) m m2 ∧
    match r1, r2 with
    | Some first, Some second =>
        first ≠ second ∧
        ∃ req,
          fst (filterContracts env flatContracts (console m)) = Returned (Some req) ∧
          Store.request_at (heap m1) first = Some req ∧
          Store.request_at (heap m2) second = Some req ∧
          Store.request_at (heap m2) first = Some req
    | None, None =>
        fst (filterContracts env flatContracts (console m)) = Returned None
    | _, _ => False
    end.
Proof.
  destruct (store_filterContracts_refines env flatContracts m)
    as (r1 & m1 & Hrun1 & Hkeep1 & Hcons1 & Hpost1).
  destruct (store_filterContracts_refines env flatContracts m1)
    as (r2 & m2 & Hrun2 & Hkeep2 & Hcons2 & Hpost2).
  exists r1, m1, r2, m2. split; [done|]. split; [done|]. split.
  { eapply keeps_trans; [exact Hkeep1|].
    destruct Hkeep1 as [_ Hdom1], Hkeep2 as [Hsame2 Hdom2]. split; [|done].
    intros ref Href. apply Hsame2. by apply Hdom1. }
  rewrite (filterContracts_result_ignores_trace env flatContracts (console m)
             (console m1)) in Hpost2.
  destruct r1 as [first|], r2 as [second|].
  - destruct Hpost1 as (_ & req & Hreq & Hfirst).
    destruct Hpost2 as (Hnew2 & req2 & Hreq2 & Hsecond).
    assert (req2 = req) as -> by congruence.
    split.
    + intros ->. apply Hnew2. unfold Store.request_at in Hfirst.
      apply elem_of_dom. destruct (heap m1 !! second); [by eexists|done].
    + exists req. split_and!; [done|done|done|].
      by apply (request_at_kept m1 m2).
  - destruct Hpost1 as (_ & req & Hreq & _). congruence.
  - destruct Hpost2 as (_ & req & Hreq & _). congruence.
  - done.
Qed.
End StoreFilterContracts.

Example second_call_runs_on_the_store_of_the_first :
  ∃ m1 m2,
    Store.filterContracts "hardhat-tenderly" sample_NetworkMap JS.toLowerCase_ascii
      (sample_env (Some "ropsten") (Some "demo") (Some "dev"))
      [Token_at "0xabc" None] {| heap := ∅; console := [] |}
    = Some (Some 6%positive, m1) ∧
    Store.filterContracts "hardhat-tenderly" sample_NetworkMap JS.toLowerCase_ascii
      (sample_env (Some "ropsten") (Some "demo") (Some "dev"))
      [Token_at "0xabc" None] m1
    = Some (Some 12%positive, m2) ∧
    size (heap m1) = 6 ∧ size (heap m2) = 12 ∧
    Store.request_at (heap m2) 12%positive = Store.request_at (heap m1) 6%positive ∧
    Store.request_at (heap m2) 6%positive = Store.request_at (heap m1) 6%positive ∧
    contracts <$> Store.request_at (heap m1) 6%positive
    = Some [Token_entry [("3", "0xabc")]; SafeMath_entry].
Proof.
  eexists _, _. split; [vm_compute; reflexivity|].
  split; [vm_compute; reflexivity|].
  split_and!; vm_compute; reflexivity.
Qed.
